(** * basepairmodels: outlier removal ([basepairmodels/cli/outliers.py])

    A shallow embedding of [getPeakPositions] and of the body of
    [outliers_main], and the properties of the peak-window extraction and
    of the quantile-based trimming that follow from that code.

    Conventions of the embedding.
    - Integer columns ([st], [e], [summit], [start], [end]) are [Z].
    - Float columns and aggregated counts are exact rationals [Q]; rounding
      is not modelled.  [npfloat] adds the one non-finite value the code can
      meet on the paths studied here, NaN.
    - A pandas data frame is the list of its rows, in row order.
    - An exception is a value of [exn]; a computation that may raise has
      type [result A]. *)

From Stdlib Require Import ZArith QArith Qround Qabs List String Bool Lia.
From Stdlib Require Import Sorting.Permutation Sorting.Sorted.
From Stdlib Require OrderedTypeEx.
From Stdlib Require Import Lqa.
From stdpp Require Import base option gmap strings.
Import ListNotations.

Local Open Scope Z_scope.
Local Open Scope string_scope.

(** ** Exceptions *)

Inductive exn : Type :=
| KeyError (key : string)
| IndexError (msg : string)
| ValueError (msg : string)
| RuntimeError (msg : string)
| NoTracebackException (msg : string).

Inductive result (A : Type) : Type :=
| Ok (a : A)
| Err (e : exn).
Arguments Ok {A} a.
Arguments Err {A} e.

(** Sequencing: the first exception raised ends the computation.  With the
    instance below, [x ← m; k] is stdpp's notation for [mbind (fun x => k) m]. *)
#[export] Instance result_bind : MBind result :=
  fun A B (k : A -> result B) (m : result A) =>
    match m with
    | Ok a => k a
    | Err e => Err e
    end.

(** [mapM f l] runs [f] on the rows of [l] in row order and stops at the
    first one that raises, as [Series.apply] does. *)
Fixpoint mapM {A B : Type} (f : A -> result B) (l : list A) : result (list B) :=
  match l with
  | [] => Ok []
  | x :: t => y ← f x; ys ← mapM f t; Ok (y :: ys)
  end.

(** ** Sorting

    A stable insertion sort for a boolean order: a row goes in front of the
    first row of the sorted rest that is not below it. *)
Section InsertionSort.
Context {A : Type} (leb : A -> A -> bool).

Fixpoint insert_sorted (x : A) (l : list A) : list A :=
  match l with
  | [] => [x]
  | y :: t => if leb x y then x :: y :: t else y :: insert_sorted x t
  end.

Definition sort_by (l : list A) : list A := fold_right insert_sorted [] l.
End InsertionSort.

(** ** Numbers *)

Inductive npfloat : Type :=
| Finite (v : Q)
| NaN.

Definition Qlt_bool (x y : Q) : bool := negb (Qle_bool y x).

(** [np.nan_to_num] on one value. *)
Definition nan_to_num (x : npfloat) : Q :=
  match x with
  | Finite v => v
  | NaN => 0%Q
  end.

(** [np.sum] of an array of finite values. *)
Definition np_sum (a : list Q) : Q := fold_left Qplus a 0%Q.

(** ** Rows *)

(** A row of a peaks file, with the column names given in [pd.read_csv]. *)
Module narrowPeak.
Record t : Type := mk {
  chrom : string;
  st : Z;
  e : Z;
  name : string;
  weight : Q;
  strand : string;
  signal : Q;
  p : Q;
  q : Q;
  summit : Z
}.

Definition eqb (a b : t) : bool :=
  String.eqb (chrom a) (chrom b) && Z.eqb (st a) (st b) && Z.eqb (e a) (e b)
  && String.eqb (name a) (name b) && Qeq_bool (weight a) (weight b)
  && String.eqb (strand a) (strand b) && Qeq_bool (signal a) (signal b)
  && Qeq_bool (p a) (p b) && Qeq_bool (q a) (q b)
  && Z.eqb (summit a) (summit b).
End narrowPeak.

(** A row of the frame returned by [getPeakPositions]: the ten columns of
    the peaks file and the window columns [start] and [end]. *)
Record PeakWindow : Type := mkPeakWindow {
  peak : narrowPeak.t;
  start : Z;
  end_ : Z
}.

(** Equality of two rows on all twelve columns, as [drop_duplicates] with no
    [subset] compares them. *)
Definition row_eqb (a b : PeakWindow) : bool :=
  narrowPeak.eqb (peak a) (peak b) && Z.eqb (start a) (start b)
  && Z.eqb (end_ a) (end_ b).

(** ** getPeakPositions *)

(** [dict(chrom_sizes.to_records(index=False))]: a later record of a
    chromosome replaces an earlier one. *)
Definition chrom_size_dict (chrom_sizes : list (string * Z)) : gmap string Z :=
  fold_left (fun (m : gmap string Z) (r : string * Z) => <[r.1 := r.2]> m)
            chrom_sizes ∅.

(** [peaks_df['chrom'].isin(chroms)] on one row. *)
Definition isin (chroms : list string) (c : string) : bool :=
  existsb (String.eqb c) chroms.

(** Lines 54-62: the columns [pos], [start] and [end] of one row.  The
    columns of the code are 64-bit integers; the values below are the ones
    the code computes as long as no operation leaves the 64-bit range, which
    [window_fits_int64] states (see [with_flank_int64_fits]). *)
Definition pos (r : narrowPeak.t) : Z := narrowPeak.st r + narrowPeak.summit r.

Definition with_flank (flank : Z) (r : narrowPeak.t) : PeakWindow :=
  {| peak := r; start := pos r - flank; end_ := pos r + flank |}.

(** Lines 68-69: the lambda applied to the [chrom] column of one row; a
    chromosome that is not a key of the dictionary raises [KeyError]. *)
Definition lookup_chrom_size (d : gmap string Z) (w : PeakWindow)
  : result (PeakWindow * Z) :=
  match d !! narrowPeak.chrom (peak w) with
  | Some size => Ok (w, size)
  | None => Err (KeyError (narrowPeak.chrom (peak w)))
  end.

(** Lines 77-78: [sort_values(['chrom', 'end'])].  Sorting on several columns
    is a lexicographic sort; the order on chromosome names is the order of
    Python strings. *)
Definition chrom_end_leb (a b : PeakWindow) : bool :=
  match String.compare (narrowPeak.chrom (peak a)) (narrowPeak.chrom (peak b)) with
  | Lt => true
  | Eq => Z.leb (end_ a) (end_ b)
  | Gt => false
  end.

(** Lines 44-78: the rows one peaks file contributes. *)
Definition source_windows (d : gmap string Z) (chroms : list string) (flank : Z)
    (peaks_df : list narrowPeak.t) : result (list PeakWindow) :=
  let peaks_df := List.filter (fun r => isin chroms (narrowPeak.chrom r)) peaks_df in
  let peaks_df := List.map (with_flank flank) peaks_df in
  let peaks_df := List.filter (fun w => (0 <=? start w)%Z) peaks_df in
  sized ← mapM (lookup_chrom_size d) peaks_df;
  let sized := List.filter (fun ws => (end_ ws.1 <=? ws.2)%Z) sized in
  Ok (sort_by chrom_end_leb (List.map fst sized)).

(** Lines 42-85: the loop over [task['loci']['source']], appending to
    [allPeaks]. *)
Fixpoint all_sources (d : gmap string Z) (chroms : list string) (flank : Z)
    (sources : list (list narrowPeak.t)) (allPeaks : list PeakWindow)
  : result (list PeakWindow) :=
  match sources with
  | [] => Ok allPeaks
  | peaks_file :: rest =>
      peaks_df ← source_windows d chroms flank peaks_file;
      all_sources d chroms flank rest (allPeaks ++ peaks_df)%list
  end.

(** [DataFrame.drop_duplicates]: a row is dropped when an equal row has been
    seen before it. *)
Fixpoint drop_duplicates_from (seen : list PeakWindow) (df : list PeakWindow)
  : list PeakWindow :=
  match df with
  | [] => []
  | r :: rest =>
      if existsb (row_eqb r) seen then drop_duplicates_from seen rest
      else r :: drop_duplicates_from (r :: seen) rest
  end.

Definition drop_duplicates (df : list PeakWindow) : list PeakWindow :=
  drop_duplicates_from [] df.

Definition getPeakPositions (sources : list (list narrowPeak.t))
    (chroms : list string) (chrom_sizes : list (string * Z)) (flank : Z)
    (drop_dups : bool) : result (list PeakWindow) :=
  let d := chrom_size_dict chrom_sizes in
  allPeaks ← all_sources d chroms flank sources [];
  Ok (if drop_dups then drop_duplicates allPeaks else allPeaks).

(** ** Signal counts (lines 135-164 of [outliers_main]) *)

(** An opened bigWig file: [values chrom start end] is the array of per-base
    values, NaN where the track has no data; the call can raise. *)
Definition Track : Type := string -> Z -> Z -> result (list npfloat).

(** A row of [peaks_df] once the count columns and [avg_counts] are added. *)
Record ScoredPeak : Type := mkScoredPeak {
  window : PeakWindow;
  track_counts : list Q;
  avg_counts : Q
}.

(** Lines 137-143: a signal source is a path and, when the path exists, the
    file opened from it. *)
Definition open_signal_file (src : string * option Track) : result Track :=
  match src.2 with
  | Some bw => Ok bw
  | None => Err (NoTracebackException ("BigWig file " +:+ src.1 +:+ " does not exist"))
  end.

(** Line 158: [np.sum(np.nan_to_num(signal_file.values(chrom, start, end)))]. *)
Definition window_count (row : PeakWindow) (signal_file : Track) : result Q :=
  vals ← signal_file (narrowPeak.chrom (peak row)) (start row) (end_ row);
  Ok (np_sum (List.map nan_to_num vals)).

(** Line 164: the mean of the count columns of one row.  With no signal file
    pandas gives NaN, which [Q] does not hold: the embedding covers tasks
    with at least one signal source whenever a row reaches this line. *)
Definition mean_axis1 (vals : list Q) : Q :=
  (np_sum vals / inject_Z (Z.of_nat (length vals)))%Q.

(** Lines 151-164 for one row. *)
Definition score_row (signal_files : list Track) (row : PeakWindow)
  : result ScoredPeak :=
  vals ← mapM (window_count row) signal_files;
  Ok {| window := row; track_counts := vals; avg_counts := mean_axis1 vals |}.

Definition compute_counts (signal_files : list Track) (peaks_df : list PeakWindow)
  : result (list ScoredPeak) :=
  mapM (score_row signal_files) peaks_df.

(** ** numpy on one-dimensional arrays *)

(** [np.quantile(a, q)] with the default linear interpolation.  The range of
    [q] is checked first.  On an empty array the lookup of the order
    statistic at index -1 raises [IndexError].  Otherwise the value lies
    between the order statistics around the position [q * (n - 1)]. *)
Definition np_quantile (a : list Q) (q : Q) : result npfloat :=
  if Qle_bool 0 q && Qle_bool q 1 then
    match sort_by Qle_bool a with
    | [] => Err (IndexError "index -1 is out of bounds for axis 0 with size 0")
    | arr =>
        let n := Z.of_nat (length arr) in
        let virtual_index := (q * inject_Z (n - 1))%Q in
        let previous := Qfloor virtual_index in
        let next := Z.min (previous + 1) (n - 1) in
        let gamma := (virtual_index - inject_Z previous)%Q in
        let lo := nth (Z.to_nat previous) arr 0%Q in
        let hi := nth (Z.to_nat next) arr 0%Q in
        Ok (Finite (lo + (hi - lo) * gamma)%Q)
    end
  else Err (ValueError "Quantiles must be in the range [0, 1]").

(** [abs(counts - nth_quantile)] on one element. *)
Definition abs_diff (nth_quantile : npfloat) (c : Q) : npfloat :=
  match nth_quantile with
  | Finite v => Finite (Qabs (c - v))
  | NaN => NaN
  end.

(** [x] takes the place of the running minimum [best]: a NaN is kept once
    met, otherwise a strictly smaller value or a NaN wins. *)
Definition replaces_min (x best : npfloat) : bool :=
  match best, x with
  | NaN, _ => false
  | Finite _, NaN => true
  | Finite b, Finite v => Qlt_bool v b
  end.

Fixpoint argmin_from (best : npfloat) (best_idx i : nat) (a : list npfloat) : nat :=
  match a with
  | [] => best_idx
  | x :: t =>
      if replaces_min x best then argmin_from x i (S i) t
      else argmin_from best best_idx (S i) t
  end.

(** [ndarray.argmin()]: the first index of the minimum. *)
Definition np_argmin (a : list npfloat) : result nat :=
  match a with
  | [] => Err (ValueError "attempt to get argmin of an empty sequence")
  | x :: t => Ok (argmin_from x 0%nat 1%nat t)
  end.

Fixpoint first_true (a : list bool) : option nat :=
  match a with
  | [] => None
  | true :: _ => Some 0%nat
  | false :: t => option_map S (first_true t)
  end.

(** [np.argmax] of a boolean array: the first index holding [True], and 0
    when none does. *)
Definition np_argmax (a : list bool) : result nat :=
  match a with
  | [] => Err (ValueError "attempt to get argmax of an empty sequence")
  | _ => Ok (match first_true a with Some i => i | None => 0%nat end)
  end.

(** ** Trimming (lines 166-197 of [outliers_main]) *)

(** The values the code logs, and the trimmed frame. *)
Record Trimmed : Type := mkTrimmed {
  nth_quantile : npfloat;
  quantile_idx : nat;
  scaled_value : Q;
  max_idx : nat;
  trimmed : list ScoredPeak
}.

(** What the code relies on from [sort_values(by=['avg_counts'])]: the rows
    come back in ascending order of [avg_counts].  The call leaves [kind] at
    its default, for which pandas promises no order among rows with equal
    keys, so the sort is a parameter of the development. *)
Record sorts_by_avg_counts (sort_values : list ScoredPeak -> list ScoredPeak) : Prop := {
  sort_values_perm : forall df, Permutation df (sort_values df);
  sort_values_sorted : forall df,
    StronglySorted (fun a b => (avg_counts a <= avg_counts b)%Q) (sort_values df)
}.

(** The task entry of the input json, with its files read. *)
Record Task : Type := mkTask {
  loci_source : list (list narrowPeak.t);
  signal_source : list (string * option Track)
}.

Section Trimmer.
Variable sort_values : list ScoredPeak -> list ScoredPeak.

Definition trim_outliers (peaks_df : list ScoredPeak) (quantile scale : Q)
  : result Trimmed :=
  let peaks_df := sort_values peaks_df in
  let counts := List.map avg_counts peaks_df in
  nth_quantile ← np_quantile counts quantile;
  quantile_idx ← np_argmin (List.map (abs_diff nth_quantile) counts);
  let scaled_value := (nth quantile_idx counts 0 * scale)%Q in
  max_idx ← np_argmax (List.map (fun c => Qlt_bool scaled_value c) counts);
  Ok {| nth_quantile := nth_quantile;
        quantile_idx := quantile_idx;
        scaled_value := scaled_value;
        max_idx := max_idx;
        trimmed := firstn max_idx peaks_df |}.

(** Lines 131-197.  [Ok rows] stands for a run that reaches [to_csv] and
    writes [rows] to the output bed file; [Err e] for a run that raises
    [e] before that line. *)
Definition outliers_main (task : Task) (chroms : list string)
    (chrom_sizes : list (string * Z)) (sequence_len : Z) (quantile scale : Q)
  : result (list narrowPeak.t) :=
  peaks_df ← getPeakPositions (loci_source task) chroms chrom_sizes
               (sequence_len / 2) true;
  signal_files ← mapM open_signal_file (signal_source task);
  peaks_df ← compute_counts signal_files peaks_df;
  t ← trim_outliers peaks_df quantile scale;
  Ok (List.map (fun r => peak (window r)) (trimmed t)).
End Trimmer.

(** The content of the output bed file after a run, if it was written. *)
Definition output_bed {A : Type} (run : result A) : option A :=
  match run with
  | Ok rows => Some rows
  | Err _ => None
  end.

(** A sort that meets [sorts_by_avg_counts], used to run the code on
    concrete frames. *)
Definition avg_counts_leb (a b : ScoredPeak) : bool :=
  Qle_bool (avg_counts a) (avg_counts b).

Definition stable_sort_values : list ScoredPeak -> list ScoredPeak :=
  sort_by avg_counts_leb.

(** ** Predicates used in the statements *)

(** A row of a peaks file whose chromosome is required, whose window does
    not start before 0 and whose chromosome has no size. *)
Definition unsized (d : gmap string Z) (chroms : list string) (flank : Z)
    (r : narrowPeak.t) : Prop :=
  isin chroms (narrowPeak.chrom r) = true /\ 0 <= pos r - flank /\
  d !! narrowPeak.chrom r = None.

(** Two rows agree on all twelve columns; float columns agree as numbers. *)
Definition same_columns (a b : PeakWindow) : Prop :=
  narrowPeak.chrom (peak a) = narrowPeak.chrom (peak b) /\
  narrowPeak.st (peak a) = narrowPeak.st (peak b) /\
  narrowPeak.e (peak a) = narrowPeak.e (peak b) /\
  start a = start b /\ end_ a = end_ b /\
  narrowPeak.name (peak a) = narrowPeak.name (peak b) /\
  (narrowPeak.weight (peak a) == narrowPeak.weight (peak b))%Q /\
  narrowPeak.strand (peak a) = narrowPeak.strand (peak b) /\
  (narrowPeak.signal (peak a) == narrowPeak.signal (peak b))%Q /\
  (narrowPeak.p (peak a) == narrowPeak.p (peak b))%Q /\
  (narrowPeak.q (peak a) == narrowPeak.q (peak b))%Q /\
  narrowPeak.summit (peak a) = narrowPeak.summit (peak b).

(** The array of booleans [counts > scaled_value] for a frame. *)
Definition exceeds (scaled_value : Q) (df : list ScoredPeak) : list bool :=
  List.map (fun c => Qlt_bool scaled_value c) (List.map avg_counts df).

(** ** Frames used in the examples *)

Definition example_peak (chrom : string) (st summit : Z) : narrowPeak.t :=
  narrowPeak.mk chrom st (st + 200) "peak" 0%Q "." 5%Q 3%Q 2%Q summit.

Definition example_sizes : list (string * Z) := [("chr1", 1000); ("chr2", 800)].

(** A track with the value 1 at every base of the interval asked for. *)
Definition example_track : Track :=
  fun _ start end_ => Ok (repeat (Finite 1%Q) (Z.to_nat (end_ - start))).

Definition example_window : PeakWindow :=
  with_flank 10 (example_peak "chr1" 100 50).

Definition example_scored (v : Q) : ScoredPeak :=
  {| window := example_window;
     track_counts := [v];
     avg_counts := v |}.



(** Three peaks with the counts 10, 20 and 30. *)
Definition example_frame : list ScoredPeak :=
  [example_scored 10; example_scored 20; example_scored 30].

(** A task whose peaks files hold no row on a required chromosome. *)
Definition task_without_peaks : Task :=
  {| loci_source := [[]; [example_peak "chr9" 100 50]];
     signal_source := [("signal.bw", Some example_track)] |}.

(** Equality of two numpy values: the same number, or NaN on both sides. *)
Definition npfloat_eq (x y : npfloat) : Prop :=
  match x, y with
  | Finite a, Finite b => (a == b)%Q
  | NaN, NaN => True
  | _, _ => False
  end.

(** Two runs of the trimming agree: the same exception, or the same logged
    values and the same kept rows, in some order. *)
Definition same_trimming (r1 r2 : result Trimmed) : Prop :=
  match r1, r2 with
  | Ok t1, Ok t2 =>
      npfloat_eq (nth_quantile t1) (nth_quantile t2) /\
      quantile_idx t1 = quantile_idx t2 /\
      (scaled_value t1 == scaled_value t2)%Q /\
      max_idx t1 = max_idx t2 /\
      Permutation (trimmed t1) (trimmed t2)
  | Err e1, Err e2 => e1 = e2
  | _, _ => False
  end.

(** The order of [sort_values(['chrom', 'end'])]: by chromosome name, then by
    the right end of the window. *)
Definition chrom_end_le (a b : PeakWindow) : Prop :=
  OrderedTypeEx.String_as_OT.lt (narrowPeak.chrom (peak a)) (narrowPeak.chrom (peak b)) \/
  (narrowPeak.chrom (peak a) = narrowPeak.chrom (peak b) /\ end_ a <= end_ b).

(** The integer columns of a frame are signed 64-bit integers, and their
    arithmetic wraps around. *)
Definition fits_int64 (z : Z) : Prop := - 2 ^ 63 <= z <= 2 ^ 63 - 1.

Definition wrap_int64 (z : Z) : Z := (z + 2 ^ 63) mod 2 ^ 64 - 2 ^ 63.

(** Lines 54-62 in 64-bit arithmetic. *)
Definition with_flank_int64 (flank : Z) (r : narrowPeak.t) : PeakWindow :=
  let pos := wrap_int64 (narrowPeak.st r + narrowPeak.summit r) in
  {| peak := r;
     start := wrap_int64 (pos - flank);
     end_ := wrap_int64 (pos + flank) |}.

(** No operation of lines 54-62 on the row leaves the 64-bit range. *)
Definition window_fits_int64 (flank : Z) (r : narrowPeak.t) : Prop :=
  fits_int64 (narrowPeak.st r) /\ fits_int64 (narrowPeak.summit r) /\
  fits_int64 flank /\ fits_int64 (pos r) /\
  fits_int64 (pos r - flank) /\ fits_int64 (pos r + flank).

(** * Properties *)

(** ** Exceptions and [mapM] *)

Lemma bind_Ok {A B : Type} (m : result A) (k : A -> result B) (b : B) :
  (m ≫= k) = Ok b -> exists a, m = Ok a /\ k a = Ok b.
Proof. destruct m as [a|err]; simpl; [eauto | discriminate]. Qed.

Lemma mapM_cons {A B : Type} (f : A -> result B) (x : A) (t : list A) :
  mapM f (x :: t) =
  match f x with
  | Ok y => match mapM f t with Ok ys => Ok (y :: ys) | Err e => Err e end
  | Err e => Err e
  end.
Proof. reflexivity. Qed.

Lemma mapM_Ok_In {A B : Type} (f : A -> result B) (l : list A) (ys : list B) :
  mapM f l = Ok ys -> forall y, In y ys -> exists x, In x l /\ f x = Ok y.
Proof.
  revert ys. induction l as [|x t IH]; intros ys H y Hy; simpl in H.
  - injection H as <-. destruct Hy.
  - apply bind_Ok in H as (y0 & Hx & H).
    apply bind_Ok in H as (ys0 & Ht & H). injection H as <-.
    destruct Hy as [<- | Hy].
    + exists x. split; [left; reflexivity | exact Hx].
    + destruct (IH ys0 Ht y Hy) as (x' & Hin & Hf).
      exists x'. split; [right; exact Hin | exact Hf].
Qed.

Lemma mapM_nil_inv {A B : Type} (f : A -> result B) (l : list A) :
  mapM f l = Ok [] -> l = [].
Proof.
  destruct l as [|x t]; [reflexivity|]. simpl. intros H.
  apply bind_Ok in H as (y0 & _ & H). apply bind_Ok in H as (ys0 & _ & H).
  discriminate.
Qed.

(** ** The insertion sort *)

Section InsertionSortFacts.
Context {A : Type} (leb : A -> A -> bool).

Lemma insert_sorted_perm (x : A) (l : list A) :
  Permutation (x :: l) (insert_sorted leb x l).
Proof.
  induction l as [|y t IH]; simpl; [reflexivity|].
  destruct (leb x y); [reflexivity|].
  rewrite perm_swap. apply perm_skip, IH.
Qed.

Lemma sort_by_perm (l : list A) : Permutation l (sort_by leb l).
Proof.
  induction l as [|x t IH]; simpl; [reflexivity|].
  rewrite <- insert_sorted_perm. apply perm_skip, IH.
Qed.

Lemma sort_by_In (l : list A) (x : A) : In x (sort_by leb l) <-> In x l.
Proof.
  split; apply Permutation_in; [symmetry|]; apply sort_by_perm.
Qed.

Hypothesis leb_total : forall a b, leb a b = true \/ leb b a = true.
Hypothesis leb_trans : forall a b c, leb a b = true -> leb b c = true -> leb a c = true.

Lemma insert_sorted_sorted (x : A) (l : list A) :
  StronglySorted (fun a b => leb a b = true) l ->
  StronglySorted (fun a b => leb a b = true) (insert_sorted leb x l).
Proof.
  induction 1 as [|y t Hs IH Hy]; simpl.
  - constructor; constructor.
  - destruct (leb x y) eqn:Hxy.
    + constructor; [constructor; assumption|].
      constructor; [exact Hxy|].
      rewrite List.Forall_forall in Hy |- *. intros z Hz.
      eapply leb_trans; [exact Hxy | apply Hy, Hz].
    + constructor; [exact IH|].
      rewrite List.Forall_forall in Hy |- *. intros z Hz.
      apply (Permutation_in _ (Permutation_sym (insert_sorted_perm x t))) in Hz.
      destruct Hz as [<- | Hz]; [|apply Hy, Hz].
      destruct (leb_total x y) as [H|H]; [congruence | exact H].
Qed.

Lemma sort_by_sorted (l : list A) :
  StronglySorted (fun a b => leb a b = true) (sort_by leb l).
Proof.
  induction l as [|x t IH]; simpl; [constructor | apply insert_sorted_sorted, IH].
Qed.
End InsertionSortFacts.

(** ** getPeakPositions *)

Lemma mapM_lookup_cases (d : gmap string Z) (l : list PeakWindow) :
  (exists sized, mapM (lookup_chrom_size d) l = Ok sized /\
     Forall (fun w => d !! narrowPeak.chrom (peak w) <> None) l) \/
  (exists w, In w l /\ d !! narrowPeak.chrom (peak w) = None /\
     mapM (lookup_chrom_size d) l = Err (KeyError (narrowPeak.chrom (peak w)))).
Proof.
  induction l as [|x t IH].
  - left. exists []. split; [reflexivity | constructor].
  - rewrite mapM_cons.
    assert (Hl := eq_refl (lookup_chrom_size d x)).
    unfold lookup_chrom_size at 2 in Hl.
    destruct (d !! narrowPeak.chrom (peak x)) as [size|] eqn:Hx; rewrite Hl.
    + destruct IH as [(sized & -> & Hall) | (w & Hin & Hw & ->)].
      * left. eexists. split; [reflexivity|].
        constructor; [congruence | exact Hall].
      * right. exists w. split; [right; exact Hin | auto].
    + right. exists x. split; [left; reflexivity | auto].
Qed.

Lemma windows_before_lookup_In (chroms : list string) (flank : Z)
    (peaks_df : list narrowPeak.t) (w : PeakWindow) :
  In w (List.filter (fun w => (0 <=? start w)%Z)
          (List.map (with_flank flank)
             (List.filter (fun r => isin chroms (narrowPeak.chrom r)) peaks_df))) <->
  exists r, In r peaks_df /\ isin chroms (narrowPeak.chrom r) = true /\
            w = with_flank flank r /\ 0 <= pos r - flank.
Proof.
  rewrite filter_In, in_map_iff. split.
  - intros ((r & <- & Hr) & Hs). apply filter_In in Hr as (Hr & Hc).
    exists r. simpl in Hs. apply Z.leb_le in Hs. auto.
  - intros (r & Hr & Hc & -> & Hs). split.
    + exists r. split; [reflexivity|]. apply filter_In. auto.
    + simpl. apply Z.leb_le, Hs.
Qed.

(** What one peaks file yields: either its rows, and then it has no unsized
    row, or the [KeyError] of one of its unsized rows. *)
Lemma source_windows_cases (d : gmap string Z) (chroms : list string) (flank : Z)
    (peaks_df : list narrowPeak.t) :
  (exists rows, source_windows d chroms flank peaks_df = Ok rows /\
     forall r, In r peaks_df -> ~ unsized d chroms flank r) \/
  (exists r, In r peaks_df /\ unsized d chroms flank r /\
     source_windows d chroms flank peaks_df = Err (KeyError (narrowPeak.chrom r))).
Proof.
  unfold source_windows.
  match goal with |- context [mapM _ ?l] => set (rows0 := l) end.
  destruct (mapM_lookup_cases d rows0) as [(sized & -> & Hall) | (w & Hin & Hw & ->)];
    simpl.
  - left. eexists. split; [reflexivity|].
    intros r Hr (Hc & Hs & Hd). rewrite List.Forall_forall in Hall.
    apply (Hall (with_flank flank r)); [|exact Hd].
    apply windows_before_lookup_In. exists r. auto.
  - right. apply windows_before_lookup_In in Hin as (r & Hr & Hc & -> & Hs).
    exists r. unfold unsized. auto.
Qed.

Lemma all_sources_unsized (d : gmap string Z) (chroms : list string) (flank : Z)
    (sources : list (list narrowPeak.t)) (allPeaks : list PeakWindow) (r : narrowPeak.t) :
  In r (concat sources) -> unsized d chroms flank r ->
  exists r', In r' (concat sources) /\ unsized d chroms flank r' /\
    all_sources d chroms flank sources allPeaks = Err (KeyError (narrowPeak.chrom r')).
Proof.
  revert allPeaks. induction sources as [|src rest IH]; intros allPeaks Hin Hr.
  - destruct Hin.
  - simpl in Hin |- *. apply in_app_or in Hin.
    destruct (source_windows_cases d chroms flank src)
      as [(rows & -> & Hnone) | (r' & Hr' & Hu & ->)]; simpl.
    + destruct Hin as [Hin | Hin]; [exfalso; exact (Hnone r Hin Hr)|].
      destruct (IH (allPeaks ++ rows)%list Hin Hr) as (r' & Hr' & Hu & ->).
      exists r'. split; [apply in_or_app; right; exact Hr' | auto].
    + exists r'. split; [apply in_or_app; left; exact Hr' | auto].
Qed.

Lemma drop_duplicates_from_In (seen df : list PeakWindow) (w : PeakWindow) :
  In w (drop_duplicates_from seen df) -> In w df.
Proof.
  revert seen. induction df as [|r rest IH]; intros seen H; simpl in *; [exact H|].
  destruct (existsb (row_eqb r) seen).
  - right. eapply IH, H.
  - destruct H as [H | H]; [left; exact H | right; eapply IH, H].
Qed.

Lemma source_windows_Ok_In (d : gmap string Z) (chroms : list string) (flank : Z)
    (src : list narrowPeak.t) (out : list PeakWindow) (w : PeakWindow) :
  source_windows d chroms flank src = Ok out -> In w out ->
  exists r size, In r src /\ isin chroms (narrowPeak.chrom r) = true /\
    w = with_flank flank r /\ 0 <= start w /\
    d !! narrowPeak.chrom r = Some size /\ end_ w <= size.
Proof.
  unfold source_windows. intros H Hw.
  apply bind_Ok in H as (sized & Hm & H). injection H as <-.
  apply sort_by_In, in_map_iff in Hw as ([w' size] & <- & Hws).
  apply filter_In in Hws as (Hws & Hle). simpl in Hle. apply Z.leb_le in Hle.
  destruct (mapM_Ok_In _ _ _ Hm _ Hws) as (w0 & Hw0 & Hl).
  unfold lookup_chrom_size in Hl.
  destruct (d !! narrowPeak.chrom (peak w0)) as [size0|] eqn:Hd; [|discriminate].
  injection Hl as -> ->.
  apply windows_before_lookup_In in Hw0 as (r & Hr & Hc & -> & Hs).
  exists r, size. simpl in *. auto 10.
Qed.

Lemma all_sources_Ok_In (d : gmap string Z) (chroms : list string) (flank : Z)
    (sources : list (list narrowPeak.t)) (allPeaks out : list PeakWindow)
    (w : PeakWindow) :
  all_sources d chroms flank sources allPeaks = Ok out -> In w out ->
  In w allPeaks \/
  exists src rows, In src sources /\ source_windows d chroms flank src = Ok rows /\
                   In w rows.
Proof.
  revert allPeaks. induction sources as [|src rest IH]; intros allPeaks H Hw; simpl in H.
  - injection H as <-. left. exact Hw.
  - apply bind_Ok in H as (rows & Hsrc & H).
    destruct (IH _ H Hw) as [Hacc | (src' & rows' & Hin & Hs & Hw')].
    + apply in_app_or in Hacc as [Hacc | Hacc]; [left; exact Hacc|].
      right. exists src, rows. split; [left; reflexivity | auto].
    + right. exists src', rows'. split; [right; exact Hin | auto].
Qed.

(** ** Missing chromosome sizes *)




(** ** Window bounds *)

Lemma wrap_int64_fits (z : Z) : fits_int64 z -> wrap_int64 z = z.
Proof.
  unfold fits_int64, wrap_int64. intros H.
  rewrite Z.mod_small; lia.
Qed.

(** Within the 64-bit range the window columns are the ones of the 64-bit
    computation. *)
Lemma with_flank_int64_fits (flank : Z) (r : narrowPeak.t) :
  window_fits_int64 flank r -> with_flank_int64 flank r = with_flank flank r.
Proof.
  intros (_ & _ & _ & Hp & Hs & He). unfold with_flank_int64, with_flank.
  fold (pos r). rewrite (wrap_int64_fits _ Hp), (wrap_int64_fits _ Hs),
    (wrap_int64_fits _ He). reflexivity.
Qed.

(** C2 (as the code has it).  With a flank that is not negative and rows whose
    window arithmetic stays within the 64-bit range, every row returned by
    [getPeakPositions] has [start = pos - flank] and [end = pos + flank], its
    chromosome has a size, and [0 <= start <= end <= size]; [start < end]
    when the flank is positive. *)
Theorem emitted_window_within_chromosome
    (sources : list (list narrowPeak.t)) (chroms : list string)
    (chrom_sizes : list (string * Z)) (flank : Z) (drop_dups : bool)
    (rows : list PeakWindow) (w : PeakWindow) :
  0 <= flank ->
  (forall r, In r (concat sources) -> isin chroms (narrowPeak.chrom r) = true ->
             window_fits_int64 flank r) ->
  getPeakPositions sources chroms chrom_sizes flank drop_dups = Ok rows ->
  In w rows ->
  exists size,
    chrom_size_dict chrom_sizes !! narrowPeak.chrom (peak w) = Some size /\
    isin chroms (narrowPeak.chrom (peak w)) = true /\
    start w = pos (peak w) - flank /\ end_ w = pos (peak w) + flank /\
    0 <= start w /\ start w <= end_ w /\ end_ w <= size /\
    (0 < flank -> start w < end_ w).
Proof.
  intros Hflank _ H Hw. unfold getPeakPositions in H.
  apply bind_Ok in H as (allPeaks & Hall & H). injection H as <-.
  assert (Hw' : In w allPeaks).
  { destruct drop_dups; [eapply drop_duplicates_from_In, Hw | exact Hw]. }
  destruct (all_sources_Ok_In _ _ _ _ _ _ _ Hall Hw')
    as [[] | (src & out & _ & Hsrc & Hout)].
  destruct (source_windows_Ok_In _ _ _ _ _ _ Hsrc Hout)
    as (r & size & _ & Hc & -> & Hs & Hd & He).
  exists size. simpl in *. repeat split; try assumption; lia.
Qed.

Lemma emitted_window_within_chromosome_witness :
  exists size,
    chrom_size_dict example_sizes !! narrowPeak.chrom (peak example_window)
      = Some size /\
    isin ["chr1"] (narrowPeak.chrom (peak example_window)) = true /\
    start example_window = pos (peak example_window) - 10 /\
    end_ example_window = pos (peak example_window) + 10 /\
    0 <= start example_window /\ start example_window <= end_ example_window /\
    end_ example_window <= size /\
    (0 < 10 -> start example_window < end_ example_window).
Proof.
  apply (emitted_window_within_chromosome [[example_peak "chr1" 100 50]] ["chr1"]
           example_sizes 10 true [example_window] example_window).
  - lia.
  - intros r [<- | []] _. unfold window_fits_int64, fits_int64.
    repeat split; vm_compute; discriminate.
  - vm_compute. reflexivity.
  - left. reflexivity.
Defined.

(** With a flank of 0 a row is returned whose window is empty. *)
Lemma empty_window_emitted_at_flank_0 :
  exists rows w,
    getPeakPositions [[example_peak "chr1" 100 50]] ["chr1"] example_sizes 0 true
      = Ok rows /\
    In w rows /\ ~ (start w < end_ w).
Proof.
  exists [with_flank 0 (example_peak "chr1" 100 50)],
         (with_flank 0 (example_peak "chr1" 100 50)).
  split; [vm_compute; reflexivity|].
  split; [left; reflexivity|]. simpl. unfold pos. simpl. lia.
Qed.

(** ** Duplicate rows *)

Lemma row_eqb_same_columns (a b : PeakWindow) :
  row_eqb a b = true <-> same_columns a b.
Proof.
  unfold row_eqb, narrowPeak.eqb, same_columns.
  rewrite !andb_true_iff, !String.eqb_eq, !Z.eqb_eq, !Qeq_bool_iff. tauto.
Qed.

Lemma row_eqb_trans (a b c : PeakWindow) :
  row_eqb a b = true -> row_eqb b c = true -> row_eqb a c = true.
Proof.
  rewrite !row_eqb_same_columns. unfold same_columns.
  intros (H1 & H2 & H3 & H4 & H5 & H6 & H7 & H8 & H9 & H10 & H11 & H12)
         (K1 & K2 & K3 & K4 & K5 & K6 & K7 & K8 & K9 & K10 & K11 & K12).
  repeat split; try congruence; etransitivity; eassumption.
Qed.

Lemma existsb_row_eqb_trans (x r : PeakWindow) (seen : list PeakWindow) :
  row_eqb x r = true -> existsb (row_eqb r) seen = true ->
  existsb (row_eqb x) seen = true.
Proof.
  intros Hxr H. apply existsb_exists in H as (y & Hy & Hry).
  apply existsb_exists. exists y. split; [exact Hy|].
  eapply row_eqb_trans; eassumption.
Qed.

(** Rows kept by [drop_duplicates_from seen] equal no row of [seen]. *)
Lemma drop_duplicates_from_fresh (seen df : list PeakWindow) :
  Forall (fun x => existsb (row_eqb x) seen = false) (drop_duplicates_from seen df).
Proof.
  revert seen. induction df as [|r rest IH]; intros seen; simpl; [constructor|].
  destruct (existsb (row_eqb r) seen) eqn:Hr; [apply IH|].
  constructor; [exact Hr|].
  eapply List.Forall_impl; [|apply (IH (r :: seen))].
  intros x Hx. simpl in Hx. apply orb_false_iff in Hx. tauto.
Qed.

(** No kept row equals a row kept before it. *)
Lemma drop_duplicates_from_distinct (seen df : list PeakWindow) :
  ForallOrdPairs (fun x y => row_eqb y x = false) (drop_duplicates_from seen df).
Proof.
  revert seen. induction df as [|r rest IH]; intros seen; simpl; [constructor|].
  destruct (existsb (row_eqb r) seen) eqn:Hr; [apply IH|].
  constructor; [|apply IH].
  eapply List.Forall_impl; [|apply (drop_duplicates_from_fresh (r :: seen))].
  intros x Hx. simpl in Hx. apply orb_false_iff in Hx. tauto.
Qed.

Lemma drop_duplicates_from_id (seen df : list PeakWindow) :
  Forall (fun x => existsb (row_eqb x) seen = false) df ->
  ForallOrdPairs (fun x y => row_eqb y x = false) df ->
  drop_duplicates_from seen df = df.
Proof.
  revert seen. induction df as [|r rest IH]; intros seen Hf Hd; [reflexivity|].
  inversion Hf as [|? ? Hr Hf']; subst. inversion Hd as [|? ? Hr' Hd']; subst.
  simpl. rewrite Hr. f_equal. apply IH; [|exact Hd'].
  rewrite List.Forall_forall in Hf', Hr' |- *. intros x Hx. simpl.
  rewrite (Hr' x Hx), (Hf' x Hx). reflexivity.
Qed.

Lemma drop_duplicates_from_snoc (seen df : list PeakWindow) (r : PeakWindow) :
  drop_duplicates_from seen (df ++ [r]) =
  (drop_duplicates_from seen df ++
   if existsb (row_eqb r) seen || existsb (row_eqb r) df then [] else [r])%list.
Proof.
  revert seen. induction df as [|x rest IH]; intros seen; simpl.
  - rewrite orb_false_r. destruct (existsb (row_eqb r) seen); reflexivity.
  - destruct (existsb (row_eqb x) seen) eqn:Hx; rewrite IH; simpl.
    + destruct (row_eqb r x) eqn:Hrx; simpl; [|reflexivity].
      rewrite (existsb_row_eqb_trans r x seen Hrx Hx). reflexivity.
    + destruct (row_eqb r x), (existsb (row_eqb r) seen); reflexivity.
Qed.

(** C9.  [drop_duplicates] compares rows on all their columns; a row is kept
    exactly when no equal row stands before it in the frame, and the kept
    rows keep their order; dropping duplicates twice is dropping them once.
    [getPeakPositions] with [drop_duplicates=True] is [drop_duplicates] of
    what it returns without. *)
Theorem drop_duplicates_keeps_first_and_is_idempotent :
  (forall a b, row_eqb a b = true <-> same_columns a b) /\
  drop_duplicates [] = [] /\
  (forall df r,
      drop_duplicates (df ++ [r]) =
      (drop_duplicates df ++ if existsb (row_eqb r) df then [] else [r])%list) /\
  (forall df, drop_duplicates (drop_duplicates df) = drop_duplicates df) /\
  (forall sources chroms chrom_sizes flank,
      getPeakPositions sources chroms chrom_sizes flank true =
      rows ← getPeakPositions sources chroms chrom_sizes flank false;
      Ok (drop_duplicates rows)).
Proof.
  split; [exact row_eqb_same_columns|].
  split; [reflexivity|].
  split; [intros df r; apply (drop_duplicates_from_snoc [] df r)|].
  split.
  - intros df. unfold drop_duplicates. apply drop_duplicates_from_id.
    + apply drop_duplicates_from_fresh.
    + apply drop_duplicates_from_distinct.
  - intros sources chroms chrom_sizes flank. unfold getPeakPositions.
    destruct (all_sources _ chroms flank sources []); reflexivity.
Qed.

(** ** numpy facts *)

Lemma Qlt_bool_iff (x y : Q) : Qlt_bool x y = true <-> (x < y)%Q.
Proof.
  unfold Qlt_bool. rewrite negb_true_iff. split.
  - intros H. apply Qnot_le_lt. intros Hle. apply Qle_bool_iff in Hle. congruence.
  - intros H. destruct (Qle_bool y x) eqn:Hle; [|reflexivity].
    apply Qle_bool_iff in Hle. exfalso. exact (Qlt_not_le _ _ H Hle).
Qed.

Lemma Qlt_bool_false_iff (x y : Q) : Qlt_bool x y = false <-> (y <= x)%Q.
Proof.
  unfold Qlt_bool. rewrite negb_false_iff. apply Qle_bool_iff.
Qed.

Lemma np_quantile_out_of_range (a : list Q) (q : Q) :
  (q < 0)%Q \/ (1 < q)%Q ->
  np_quantile a q = Err (ValueError "Quantiles must be in the range [0, 1]").
Proof.
  intros H. unfold np_quantile.
  destruct (Qle_bool 0 q && Qle_bool q 1) eqn:Hq; [|reflexivity].
  apply andb_true_iff in Hq as (H0 & H1).
  apply Qle_bool_iff in H0, H1.
  destruct H as [H | H]; exfalso; eapply Qlt_not_le; eassumption.
Qed.

Lemma np_quantile_in_range (a : list Q) (q : Q) :
  (0 <= q)%Q -> (q <= 1)%Q ->
  match a with
  | [] => np_quantile a q
          = Err (IndexError "index -1 is out of bounds for axis 0 with size 0")
  | _ :: _ => exists v, np_quantile a q = Ok (Finite v)
  end.
Proof.
  intros H0 H1. unfold np_quantile.
  apply Qle_bool_iff in H0, H1. rewrite H0, H1. simpl andb. cbv iota.
  destruct a as [|x t]; [reflexivity|].
  destruct (sort_by Qle_bool (x :: t)) as [|y arr] eqn:Hsort.
  - exfalso. apply (Permutation_nil_cons (l := t) (x := x)).
    rewrite <- Hsort. symmetry. apply sort_by_perm.
  - eexists. reflexivity.
Qed.

Lemma np_argmin_nonempty (x : npfloat) (t : list npfloat) :
  exists i, np_argmin (x :: t) = Ok i.
Proof. eexists. reflexivity. Qed.

Lemma first_true_Some (a : list bool) (i : nat) :
  first_true a = Some i ->
  nth_error a i = Some true /\
  forall j, (j < i)%nat -> nth_error a j = Some false.
Proof.
  revert i. induction a as [|b t IH]; intros i H; simpl in H; [discriminate|].
  destruct b.
  - injection H as <-. split; [reflexivity|]. intros j Hj. lia.
  - destruct (first_true t) as [k|] eqn:Hk; [|discriminate].
    injection H as <-. destruct (IH k eq_refl) as (Hk1 & Hk2).
    split; [exact Hk1|]. intros [|j] Hj; [reflexivity|].
    simpl. apply Hk2. lia.
Qed.

Lemma first_true_None (a : list bool) :
  first_true a = None <-> forall b, In b a -> b = false.
Proof.
  induction a as [|b t IH]; simpl.
  - split; [intros _ b [] | reflexivity].
  - destruct b.
    + split; [discriminate|]. intros H. discriminate (H true). left. reflexivity.
    + destruct (first_true t) as [k|]; simpl.
      * split; [discriminate|]. intros H.
        assert (Some k = None) by (apply IH; intros b Hb; apply H; right; exact Hb).
        discriminate.
      * split; [|reflexivity]. intros _ b [<- | Hb]; [reflexivity|].
        apply (proj1 IH eq_refl b Hb).
Qed.

(** ** Trimming *)

Lemma exceeds_nth_error (sv : Q) (df : list ScoredPeak) (i : nat) (b : bool) :
  nth_error (exceeds sv df) i = Some b ->
  exists p, nth_error df i = Some p /\ b = Qlt_bool sv (avg_counts p).
Proof.
  unfold exceeds. rewrite map_map, nth_error_map.
  destruct (nth_error df i) as [p|]; simpl; [|discriminate].
  intros H. injection H as <-. eauto.
Qed.

Lemma first_true_exceeds_Some (sv : Q) (df : list ScoredPeak) :
  (exists p, In p df /\ (sv < avg_counts p)%Q) ->
  exists i, first_true (exceeds sv df) = Some i.
Proof.
  intros (p & Hp & Hlt).
  destruct (first_true (exceeds sv df)) as [i|] eqn:H; [eauto|].
  exfalso. rewrite first_true_None in H.
  assert (Hb : Qlt_bool sv (avg_counts p) = false).
  { apply H. unfold exceeds. rewrite map_map. apply in_map_iff. eauto. }
  apply Qlt_bool_iff in Hlt. congruence.
Qed.

Lemma first_true_exceeds_None (sv : Q) (df : list ScoredPeak) :
  (forall p, In p df -> (avg_counts p <= sv)%Q) ->
  first_true (exceeds sv df) = None.
Proof.
  intros H. apply first_true_None. intros b Hb.
  unfold exceeds in Hb. rewrite map_map in Hb.
  apply in_map_iff in Hb as (p & <- & Hp).
  apply Qlt_bool_false_iff, H, Hp.
Qed.

Section TrimmerFacts.
Variable sort_values : list ScoredPeak -> list ScoredPeak.
Hypothesis sort_values_ok : sorts_by_avg_counts sort_values.

Lemma sort_values_nonempty (df : list ScoredPeak) :
  df <> [] -> sort_values df <> [].
Proof.
  intros Hne Hnil. apply Hne. apply Permutation_nil.
  rewrite <- Hnil. symmetry. apply sort_values_ok.
Qed.

Lemma sort_values_nil : sort_values [] = [].
Proof. apply Permutation_nil, sort_values_ok. Qed.

(** On a frame with at least one row and a quantile in [[0, 1]] the code
    runs to the end, and its values are the ones of lines 173-190. *)
Lemma trim_outliers_Ok (df : list ScoredPeak) (quantile scale : Q) :
  df <> [] -> (0 <= quantile)%Q -> (quantile <= 1)%Q ->
  exists t,
    trim_outliers sort_values df quantile scale = Ok t /\
    np_quantile (List.map avg_counts (sort_values df)) quantile
      = Ok (nth_quantile t) /\
    np_argmin (List.map (abs_diff (nth_quantile t))
                 (List.map avg_counts (sort_values df))) = Ok (quantile_idx t) /\
    scaled_value t =
      (nth (quantile_idx t) (List.map avg_counts (sort_values df)) 0 * scale)%Q /\
    max_idx t = match first_true (exceeds (scaled_value t) (sort_values df)) with
                | Some i => i
                | None => 0%nat
                end /\
    trimmed t = firstn (max_idx t) (sort_values df).
Proof.
  intros Hne H0 H1. apply sort_values_nonempty in Hne.
  unfold trim_outliers, exceeds.
  destruct (sort_values df) as [|p0 rest]; [congruence|].
  pose proof (np_quantile_in_range (List.map avg_counts (p0 :: rest)) quantile H0 H1)
    as (v & Hq).
  rewrite Hq. simpl. eexists. split; [reflexivity|]. simpl. auto 10.
Qed.
End TrimmerFacts.

Lemma stable_sort_values_ok : sorts_by_avg_counts stable_sort_values.
Proof.
  split; intros df; unfold stable_sort_values.
  - apply sort_by_perm.
  - assert (Hs : StronglySorted (fun a b => avg_counts_leb a b = true)
                   (sort_by avg_counts_leb df)).
    { apply sort_by_sorted; unfold avg_counts_leb.
      - intros a b. rewrite !Qle_bool_iff.
        destruct (Qlt_le_dec (avg_counts a) (avg_counts b)) as [H|H];
          [left; apply Qlt_le_weak, H | right; exact H].
      - intros a b c. rewrite !Qle_bool_iff. apply Qle_trans. }
    induction Hs as [|x l _ IH Hx]; constructor; [exact IH|].
    eapply List.Forall_impl; [|exact Hx].
    intros y Hy. apply Qle_bool_iff, Hy.
Qed.

(** C4.  On a frame with at least one row, sorted by [avg_counts], the trim
    boundary [max_idx] is the position of the first row whose [avg_counts]
    is above [scaled_value]; when no row is above it the boundary is 0 and
    every row is discarded; the result is the sorted frame cut at the
    boundary. *)
Theorem trim_boundary_is_first_exceeder_else_0
    (sort_values : list ScoredPeak -> list ScoredPeak)
    (df : list ScoredPeak) (quantile scale : Q) :
  sorts_by_avg_counts sort_values ->
  df <> [] -> (0 <= quantile)%Q -> (quantile <= 1)%Q ->
  exists t,
    trim_outliers sort_values df quantile scale = Ok t /\
    trimmed t = firstn (max_idx t) (sort_values df) /\
    ((exists p, In p (sort_values df) /\ (scaled_value t < avg_counts p)%Q) ->
     (exists p, nth_error (sort_values df) (max_idx t) = Some p /\
                (scaled_value t < avg_counts p)%Q) /\
     (forall j p, (j < max_idx t)%nat -> nth_error (sort_values df) j = Some p ->
                  (avg_counts p <= scaled_value t)%Q)) /\
    ((forall p, In p (sort_values df) -> (avg_counts p <= scaled_value t)%Q) ->
     max_idx t = 0%nat /\ trimmed t = []).
Proof.
  intros Hs Hne H0 H1.
  destruct (trim_outliers_Ok sort_values Hs df quantile scale Hne H0 H1)
    as (t & Ht & _ & _ & _ & Hmax & Htrim).
  exists t. split; [exact Ht|]. split; [exact Htrim|]. split.
  - intros Hex.
    destruct (first_true_exceeds_Some _ _ Hex) as (i & Hi).
    rewrite Hi in Hmax. rewrite Hmax.
    destruct (first_true_Some _ _ Hi) as (Hat & Hbefore). split.
    + apply exceeds_nth_error in Hat as (p & Hp & Hb).
      exists p. split; [exact Hp|]. apply Qlt_bool_iff. symmetry. exact Hb.
    + intros j p Hj Hp.
      destruct (exceeds_nth_error _ _ _ _ (Hbefore j Hj)) as (p' & Hp' & Hb).
      assert (p' = p) by congruence. subst p'.
      apply Qlt_bool_false_iff. symmetry. exact Hb.
  - intros Hall. rewrite (first_true_exceeds_None _ _ Hall) in Hmax.
    split; [exact Hmax|]. rewrite Htrim, Hmax. reflexivity.
Qed.

Lemma trim_boundary_is_first_exceeder_else_0_witness :
  exists t,
    trim_outliers stable_sort_values
      [example_scored 30; example_scored 10; example_scored 20] (1 # 2) (12 # 10)
      = Ok t /\
    max_idx t = 2%nat /\
    trimmed t = [example_scored 10; example_scored 20].
Proof.
  destruct (trim_boundary_is_first_exceeder_else_0 stable_sort_values
              [example_scored 30; example_scored 10; example_scored 20]
              (1 # 2) (12 # 10) stable_sort_values_ok)
    as (t & Ht & Htrim & _).
  - discriminate.
  - vm_compute. discriminate.
  - vm_compute. discriminate.
  - exists t. split; [exact Ht|].
    vm_compute in Ht. injection Ht as <-. split; reflexivity.
Defined.

Lemma filter_none {A : Type} (f : A -> bool) (l : list A) :
  (forall x, In x l -> f x = false) -> List.filter f l = [].
Proof.
  induction l as [|x t IH]; intros H; simpl; [reflexivity|].
  rewrite (H x (or_introl eq_refl)). apply IH. intros y Hy. apply H. right. exact Hy.
Qed.

(** In a frame sorted by [avg_counts], cutting at the first row above a
    threshold (at the end when there is none) keeps the rows at or below it. *)
Lemma firstn_first_exceeder_filter (sv : Q) (l : list ScoredPeak) :
  StronglySorted (fun a b => (avg_counts a <= avg_counts b)%Q) l ->
  firstn (match first_true (exceeds sv l) with Some i => i | None => length l end) l
  = List.filter (fun p => Qle_bool (avg_counts p) sv) l.
Proof.
  induction 1 as [|x t Hs IH Hx]; [reflexivity|].
  unfold exceeds in *. simpl.
  destruct (Qlt_bool sv (avg_counts x)) eqn:Hlt.
  - apply Qlt_bool_iff in Hlt.
    assert (Hx' : Qle_bool (avg_counts x) sv = false).
    { destruct (Qle_bool (avg_counts x) sv) eqn:Hle; [|reflexivity].
      apply Qle_bool_iff in Hle. exfalso. exact (Qlt_not_le _ _ Hlt Hle). }
    rewrite Hx'. simpl. symmetry.
    apply filter_none. intros y Hy.
    rewrite List.Forall_forall in Hx. specialize (Hx y Hy).
    destruct (Qle_bool (avg_counts y) sv) eqn:Hle; [|reflexivity].
    apply Qle_bool_iff in Hle. exfalso.
    apply (Qlt_not_le _ _ Hlt). eapply Qle_trans; eassumption.
  - apply Qlt_bool_false_iff, Qle_bool_iff in Hlt. rewrite Hlt.
    destruct (first_true _) as [i|]; simpl in *; f_equal; exact IH.
Qed.

(** C10 (as the code has it).  The scaled value is the count of the sorted
    frame at the quantile index times the scale factor.  When some row is
    above it, the trimmed frame is the sorted frame filtered to the rows at
    or below the scaled value; a trim boundary above 0 implies that some row
    is above the scaled value, but not the converse: the boundary is 0 when
    the first row of the sorted frame is already above it.  When no row is
    above the scaled value the trimmed frame is empty, while every row is at
    or below the scaled value. *)
Theorem trimmed_is_threshold_filter_when_exceeder_exists
    (sort_values : list ScoredPeak -> list ScoredPeak)
    (df : list ScoredPeak) (quantile scale : Q) :
  sorts_by_avg_counts sort_values ->
  df <> [] -> (0 <= quantile)%Q -> (quantile <= 1)%Q ->
  exists t,
    trim_outliers sort_values df quantile scale = Ok t /\
    np_quantile (List.map avg_counts (sort_values df)) quantile
      = Ok (nth_quantile t) /\
    np_argmin (List.map (abs_diff (nth_quantile t))
                 (List.map avg_counts (sort_values df))) = Ok (quantile_idx t) /\
    scaled_value t =
      (nth (quantile_idx t) (List.map avg_counts (sort_values df)) 0 * scale)%Q /\
    ((0 < max_idx t)%nat ->
     exists p, In p (sort_values df) /\ (scaled_value t < avg_counts p)%Q) /\
    ((exists p, In p (sort_values df) /\ (scaled_value t < avg_counts p)%Q) ->
     trimmed t =
       List.filter (fun p => Qle_bool (avg_counts p) (scaled_value t)) (sort_values df)) /\
    ((forall p, In p (sort_values df) -> (avg_counts p <= scaled_value t)%Q) ->
     trimmed t = [] /\
     List.filter (fun p => Qle_bool (avg_counts p) (scaled_value t)) (sort_values df)
       = sort_values df /\
     sort_values df <> []).
Proof.
  intros Hs Hne H0 H1.
  destruct (trim_outliers_Ok sort_values Hs df quantile scale Hne H0 H1)
    as (t & Ht & Hq & Hidx & Hsv & Hmax & Htrim).
  exists t. split; [exact Ht|]. split; [exact Hq|]. split; [exact Hidx|].
  split; [exact Hsv|]. split; [|split].
  - intros Hpos.
    destruct (first_true (exceeds (scaled_value t) (sort_values df))) as [i|] eqn:Hi;
      [|lia].
    destruct (first_true_Some _ _ Hi) as (Hat & _).
    apply exceeds_nth_error in Hat as (p & Hp & Hb).
    exists p. split; [eapply nth_error_In, Hp|].
    apply Qlt_bool_iff. symmetry. exact Hb.
  - intros Hex.
    destruct (first_true_exceeds_Some _ _ Hex) as (i & Hi).
    pose proof (firstn_first_exceeder_filter (scaled_value t) (sort_values df)
                  (sort_values_sorted _ Hs df)) as Hcut.
    rewrite Hi in Hmax, Hcut. rewrite Htrim, Hmax. exact Hcut.
  - intros Hall. rewrite (first_true_exceeds_None _ _ Hall) in Hmax.
    split; [rewrite Htrim, Hmax; reflexivity|]. split.
    + apply forallb_filter_id. apply forallb_forall. intros p Hp.
      apply Qle_bool_iff, Hall, Hp.
    + apply sort_values_nonempty; assumption.
Qed.

Lemma trimmed_is_threshold_filter_when_exceeder_exists_witness :
  exists t,
    trim_outliers stable_sort_values
      [example_scored 30; example_scored 10; example_scored 20] (1 # 2) (12 # 10)
      = Ok t /\
    quantile_idx t = 1%nat /\ (scaled_value t == 24)%Q /\ max_idx t = 2%nat /\
    trimmed t = [example_scored 10; example_scored 20] /\
    trimmed t =
      List.filter (fun p => Qle_bool (avg_counts p) (scaled_value t))
        (stable_sort_values [example_scored 30; example_scored 10; example_scored 20]).
Proof.
  destruct (trimmed_is_threshold_filter_when_exceeder_exists stable_sort_values
              [example_scored 30; example_scored 10; example_scored 20]
              (1 # 2) (12 # 10) stable_sort_values_ok)
    as (t & Ht & _ & _ & _ & _ & Hfilter & _).
  - discriminate.
  - vm_compute. discriminate.
  - vm_compute. discriminate.
  - exists t. split; [exact Ht|].
    assert (Hex : exists p,
               In p (stable_sort_values
                       [example_scored 30; example_scored 10; example_scored 20]) /\
               (scaled_value t < avg_counts p)%Q).
    { exists (example_scored 30). vm_compute in Ht. injection Ht as <-.
      split; [vm_compute; auto | vm_compute; reflexivity]. }
    specialize (Hfilter Hex).
    vm_compute in Ht. injection Ht as <-.
    split; [reflexivity|]. split; [vm_compute; reflexivity|].
    split; [reflexivity|]. split; [reflexivity | exact Hfilter].
Defined.

(** Some row above the scaled value does not make the trim boundary
    positive: with the counts 10, 20, 30, the median and the scale factor
    0.4, the scaled value is 8, every row is above it and the boundary is
    0. *)
Lemma exceeder_with_trim_boundary_0 :
  exists t,
    trim_outliers stable_sort_values example_frame (1 # 2) (4 # 10) = Ok t /\
    (scaled_value t == 8)%Q /\
    (exists p, In p (stable_sort_values example_frame) /\
               (scaled_value t < avg_counts p)%Q) /\
    max_idx t = 0%nat /\ ~ (0 < max_idx t)%nat /\ trimmed t = [].
Proof.
  eexists. split; [vm_compute; reflexivity|].
  split; [vm_compute; reflexivity|]. split; [|split; [reflexivity|split]].
  - exists (example_scored 10). split; [vm_compute; auto | vm_compute; reflexivity].
  - simpl. lia.
  - reflexivity.
Qed.

(** ** The scale factor *)

Lemma first_true_exceeds_mono (sv1 sv2 : Q) (l : list ScoredPeak) (i2 : nat) :
  (sv1 <= sv2)%Q ->
  first_true (exceeds sv2 l) = Some i2 ->
  exists i1, first_true (exceeds sv1 l) = Some i1 /\ (i1 <= i2)%nat.
Proof.
  intros Hle. revert i2. unfold exceeds.
  induction l as [|x t IH]; intros i2 H; simpl in *; [discriminate|].
  destruct (Qlt_bool sv1 (avg_counts x)) eqn:H1.
  - exists 0%nat. split; [reflexivity | lia].
  - destruct (Qlt_bool sv2 (avg_counts x)) eqn:H2.
    + exfalso. apply Qlt_bool_iff in H2. apply Qlt_bool_false_iff in H1.
      apply (Qlt_not_le _ _ H2). eapply Qle_trans; eassumption.
    + destruct (first_true (List.map _ (List.map avg_counts t))) as [k|] eqn:Hk;
        [|discriminate].
      injection H as <-. destruct (IH k eq_refl) as (i1 & -> & Hi).
      exists (S i1). split; [reflexivity | lia].
Qed.

(** C3 (as the code has it).  For a frame with at least one row and scale
    factors [0 < s1 < s2], the quantile and the quantile index do not depend
    on the scale factor, and when the count at the quantile index is not
    negative and some row is still above the scaled value of [s2], the trim
    boundary of [s2] is not below the one of [s1]. *)
Theorem trim_boundary_monotone_while_a_row_exceeds
    (sort_values : list ScoredPeak -> list ScoredPeak)
    (df : list ScoredPeak) (quantile s1 s2 : Q) :
  sorts_by_avg_counts sort_values ->
  df <> [] -> (0 <= quantile)%Q -> (quantile <= 1)%Q ->
  (0 < s1)%Q -> (s1 < s2)%Q ->
  exists t1 t2,
    trim_outliers sort_values df quantile s1 = Ok t1 /\
    trim_outliers sort_values df quantile s2 = Ok t2 /\
    nth_quantile t1 = nth_quantile t2 /\
    quantile_idx t1 = quantile_idx t2 /\
    ((0 <= nth (quantile_idx t1) (List.map avg_counts (sort_values df)) 0)%Q ->
     (exists p, In p (sort_values df) /\ (scaled_value t2 < avg_counts p)%Q) ->
     (max_idx t1 <= max_idx t2)%nat).
Proof.
  intros Hs Hne H0 H1 Hs1 Hs12.
  destruct (trim_outliers_Ok sort_values Hs df quantile s1 Hne H0 H1)
    as (t1 & Ht1 & Hq1 & Hi1 & Hsv1 & Hmax1 & _).
  destruct (trim_outliers_Ok sort_values Hs df quantile s2 Hne H0 H1)
    as (t2 & Ht2 & Hq2 & Hi2 & Hsv2 & Hmax2 & _).
  assert (Hq : nth_quantile t1 = nth_quantile t2) by congruence.
  assert (Hi : quantile_idx t1 = quantile_idx t2).
  { rewrite Hq in Hi1. congruence. }
  exists t1, t2. repeat split; try assumption.
  intros Hc Hex.
  destruct (first_true_exceeds_Some _ _ Hex) as (i2 & Hi2').
  assert (Hle : (scaled_value t1 <= scaled_value t2)%Q).
  { rewrite Hsv1, Hsv2, <- Hi.
    rewrite (Qmult_comm _ s1), (Qmult_comm _ s2).
    apply Qmult_le_compat_r; [apply Qlt_le_weak, Hs12 | exact Hc]. }
  destruct (first_true_exceeds_mono _ _ _ _ Hle Hi2') as (i1 & Hi1' & Hlei).
  rewrite Hi1' in Hmax1. rewrite Hi2' in Hmax2. lia.
Qed.

Lemma trim_boundary_monotone_while_a_row_exceeds_witness :
  exists t1 t2,
    trim_outliers stable_sort_values example_frame (1 # 2) (11 # 10) = Ok t1 /\
    trim_outliers stable_sort_values example_frame (1 # 2) (12 # 10) = Ok t2 /\
    (max_idx t1 <= max_idx t2)%nat.
Proof.
  destruct (trim_boundary_monotone_while_a_row_exceeds stable_sort_values
              example_frame (1 # 2) (11 # 10) (12 # 10) stable_sort_values_ok)
    as (t1 & t2 & Ht1 & Ht2 & _ & _ & Hmono).
  - discriminate.
  - vm_compute. discriminate.
  - vm_compute. discriminate.
  - vm_compute. reflexivity.
  - vm_compute. reflexivity.
  - exists t1, t2. split; [exact Ht1|]. split; [exact Ht2|].
    apply Hmono.
    + vm_compute in Ht1. injection Ht1 as <-. vm_compute. discriminate.
    + exists (example_scored 30). vm_compute in Ht2. injection Ht2 as <-.
      split; [vm_compute; auto | vm_compute; reflexivity].
Defined.

(** A larger scale factor lowers the trim boundary to 0 once no row is above
    the scaled value: on counts 10, 20, 30 at the median the boundary is 2
    for 1.2 and 0 for 2. *)
Lemma larger_scale_can_lower_trim_boundary :
  exists t1 t2,
    trim_outliers stable_sort_values example_frame (1 # 2) (12 # 10) = Ok t1 /\
    trim_outliers stable_sort_values example_frame (1 # 2) (2 # 1) = Ok t2 /\
    (0 < 12 # 10)%Q /\ (12 # 10 < 2 # 1)%Q /\
    max_idx t1 = 2%nat /\ max_idx t2 = 0%nat /\
    ~ (max_idx t1 <= max_idx t2)%nat.
Proof.
  eexists. eexists.
  split; [vm_compute; reflexivity|].
  split; [vm_compute; reflexivity|].
  split; [reflexivity|]. split; [reflexivity|].
  split; [reflexivity|]. split; [reflexivity|]. simpl. lia.
Qed.

(** ** The quantile argument *)

Lemma sort_by_Qle_bool_sorted (a : list Q) :
  StronglySorted (fun x y => (x <= y)%Q) (sort_by Qle_bool a).
Proof.
  assert (Hs : StronglySorted (fun x y => Qle_bool x y = true) (sort_by Qle_bool a)).
  { apply sort_by_sorted.
    - intros x y. rewrite !Qle_bool_iff.
      destruct (Qlt_le_dec x y) as [H|H]; [left; apply Qlt_le_weak, H | right; exact H].
    - intros x y z. rewrite !Qle_bool_iff. apply Qle_trans. }
  induction Hs as [|x l _ IH Hx]; constructor; [exact IH|].
  eapply List.Forall_impl; [|exact Hx]. intros y Hy. apply Qle_bool_iff, Hy.
Qed.

Lemma sorted_last_is_largest (x : Q) (l : list Q) (c : Q) :
  StronglySorted (fun x y => (x <= y)%Q) (x :: l) ->
  In c (x :: l) -> (c <= nth (length l) (x :: l) 0)%Q.
Proof.
  revert x c. induction l as [|y t IH]; intros x c Hs Hc.
  - destruct Hc as [<- | []]. apply Qle_refl.
  - inversion Hs as [|? ? Hs' Hx]; subst.
    change (nth (length (y :: t)) (x :: y :: t) 0%Q) with (nth (length t) (y :: t) 0%Q).
    destruct Hc as [<- | Hc]; [|apply IH; assumption].
    eapply Qle_trans; [|apply (IH y y Hs'); left; reflexivity].
    rewrite List.Forall_forall in Hx. apply Hx. left. reflexivity.
Qed.

(** [np.quantile(a, 0)] is the smallest element of the array. *)
Lemma np_quantile_0_is_min (a : list Q) :
  a <> [] ->
  exists v c, np_quantile a 0 = Ok (Finite v) /\ (v == c)%Q /\ In c a /\
              forall c', In c' a -> (c <= c')%Q.
Proof.
  intros Hne. unfold np_quantile.
  change (Qle_bool 0 0 && Qle_bool 0 1) with true. cbv iota.
  pose proof (sort_by_Qle_bool_sorted a) as Hs.
  pose proof (sort_by_In Qle_bool a) as Hin.
  destruct (sort_by Qle_bool a) as [|x l].
  { exfalso. destruct a as [|y t]; [congruence|].
    apply (proj2 (Hin y)). left. reflexivity. }
  set (m := Z.of_nat (length (x :: l)) - 1).
  assert (Hvirt : (0 * inject_Z m == 0)%Q) by apply Qmult_0_l.
  assert (Hfl : Qfloor (0 * inject_Z m) = 0) by (rewrite Hvirt; reflexivity).
  rewrite Hfl. eexists _, x. split; [reflexivity|]. split; [|split].
  - change (nth (Z.to_nat 0) (x :: l) 0%Q) with x. rewrite Hvirt.
    change (inject_Z 0) with 0%Q. ring.
  - apply Hin. left. reflexivity.
  - intros c' Hc'. apply Hin in Hc' as [<- | Hc']; [apply Qle_refl|].
    inversion Hs as [|? ? _ Hx]; subst.
    rewrite List.Forall_forall in Hx. apply Hx, Hc'.
Qed.

(** [np.quantile(a, 1)] is the largest element of the array. *)
Lemma np_quantile_1_is_max (a : list Q) :
  a <> [] ->
  exists v c, np_quantile a 1 = Ok (Finite v) /\ (v == c)%Q /\ In c a /\
              forall c', In c' a -> (c' <= c)%Q.
Proof.
  intros Hne. unfold np_quantile.
  change (Qle_bool 0 1 && Qle_bool 1 1) with true. cbv iota.
  pose proof (sort_by_Qle_bool_sorted a) as Hs.
  pose proof (sort_by_In Qle_bool a) as Hin.
  destruct (sort_by Qle_bool a) as [|x l].
  { exfalso. destruct a as [|y t]; [congruence|].
    apply (proj2 (Hin y)). left. reflexivity. }
  set (m := Z.of_nat (length (x :: l)) - 1).
  assert (Hm : m = Z.of_nat (length l)) by (unfold m; simpl length; lia).
  assert (Hvirt : (1 * inject_Z m == inject_Z m)%Q) by apply Qmult_1_l.
  assert (Hfl : Qfloor (1 * inject_Z m) = m) by (rewrite Hvirt; apply Qfloor_Z).
  rewrite Hfl. replace (Z.min (m + 1) m) with m by lia.
  eexists _, (nth (length l) (x :: l) 0%Q). split; [reflexivity|]. split; [|split].
  - rewrite Hm, Nat2Z.id, <- Hm, Hvirt. ring.
  - apply Hin. apply nth_In. simpl. lia.
  - intros c' Hc'. apply Hin in Hc'. apply sorted_last_is_largest; assumption.
Qed.

(** C6 (as the code has it).  A quantile below 0 or above 1 makes the
    trimming raise the [ValueError] of [np.quantile], whatever the frame; a
    quantile in [[0, 1]], 0 and 1 included, is accepted, and the trimming of a
    frame with at least one row then returns.  At the quantile 0 the logged
    quantile is the smallest [avg_counts] of the frame, at the quantile 1 the
    largest. *)
Theorem quantile_outside_0_1_raises_ValueError
    (sort_values : list ScoredPeak -> list ScoredPeak)
    (df : list ScoredPeak) (quantile scale : Q) :
  ((quantile < 0)%Q \/ (1 < quantile)%Q ->
   trim_outliers sort_values df quantile scale
   = Err (ValueError "Quantiles must be in the range [0, 1]")) /\
  (sorts_by_avg_counts sort_values -> df <> [] ->
   (0 <= quantile)%Q -> (quantile <= 1)%Q ->
   exists t, trim_outliers sort_values df quantile scale = Ok t) /\
  (sorts_by_avg_counts sort_values -> df <> [] ->
   exists t v p,
     trim_outliers sort_values df 0 scale = Ok t /\
     nth_quantile t = Finite v /\ In p df /\ (v == avg_counts p)%Q /\
     forall p', In p' df -> (avg_counts p <= avg_counts p')%Q) /\
  (sorts_by_avg_counts sort_values -> df <> [] ->
   exists t v p,
     trim_outliers sort_values df 1 scale = Ok t /\
     nth_quantile t = Finite v /\ In p df /\ (v == avg_counts p)%Q /\
     forall p', In p' df -> (avg_counts p' <= avg_counts p)%Q).
Proof.
  split; [|split; [|split]].
  - intros H. unfold trim_outliers.
    rewrite (np_quantile_out_of_range _ _ H). reflexivity.
  - intros Hs Hne H0 H1.
    destruct (trim_outliers_Ok sort_values Hs df quantile scale Hne H0 H1)
      as (t & Ht & _).
    exists t. exact Ht.
  - intros Hs Hne.
    destruct (trim_outliers_Ok sort_values Hs df 0 scale Hne)
      as (t & Ht & Hq & _); [apply Qle_refl | discriminate|].
    assert (Hc : List.map avg_counts (sort_values df) <> []).
    { intros Hnil. apply map_eq_nil in Hnil.
      exact (sort_values_nonempty _ Hs df Hne Hnil). }
    destruct (np_quantile_0_is_min _ Hc) as (v & c & Hv & Hvc & Hin & Hmin).
    apply in_map_iff in Hin as (p & <- & Hp).
    exists t, v, p. split; [exact Ht|]. split; [congruence|].
    split; [apply (Permutation_in _ (Permutation_sym (sort_values_perm _ Hs df)) Hp)|].
    split; [exact Hvc|]. intros p' Hp'. apply Hmin. apply in_map.
    apply (Permutation_in _ (sort_values_perm _ Hs df) Hp').
  - intros Hs Hne.
    destruct (trim_outliers_Ok sort_values Hs df 1 scale Hne)
      as (t & Ht & Hq & _); [discriminate | apply Qle_refl|].
    assert (Hc : List.map avg_counts (sort_values df) <> []).
    { intros Hnil. apply map_eq_nil in Hnil.
      exact (sort_values_nonempty _ Hs df Hne Hnil). }
    destruct (np_quantile_1_is_max _ Hc) as (v & c & Hv & Hvc & Hin & Hmax).
    apply in_map_iff in Hin as (p & <- & Hp).
    exists t, v, p. split; [exact Ht|]. split; [congruence|].
    split; [apply (Permutation_in _ (Permutation_sym (sort_values_perm _ Hs df)) Hp)|].
    split; [exact Hvc|]. intros p' Hp'. apply Hmax. apply in_map.
    apply (Permutation_in _ (sort_values_perm _ Hs df) Hp').
Qed.

Lemma quantile_outside_0_1_raises_ValueError_witness :
  trim_outliers stable_sort_values example_frame (3 # 2) (12 # 10)
  = Err (ValueError "Quantiles must be in the range [0, 1]") /\
  (exists t, trim_outliers stable_sort_values example_frame (1 # 2) (12 # 10) = Ok t) /\
  exists t v p,
    trim_outliers stable_sort_values example_frame 1 (12 # 10) = Ok t /\
    nth_quantile t = Finite v /\ In p example_frame /\ (v == avg_counts p)%Q /\
    forall p', In p' example_frame -> (avg_counts p' <= avg_counts p)%Q.
Proof.
  split; [|split].
  - apply (quantile_outside_0_1_raises_ValueError stable_sort_values example_frame
             (3 # 2) (12 # 10)).
    right. vm_compute. reflexivity.
  - apply (quantile_outside_0_1_raises_ValueError stable_sort_values example_frame
             (1 # 2) (12 # 10)).
    + exact stable_sort_values_ok.
    + discriminate.
    + vm_compute. discriminate.
    + vm_compute. discriminate.
  - apply (quantile_outside_0_1_raises_ValueError stable_sort_values example_frame
             (1 # 2) (12 # 10)).
    + exact stable_sort_values_ok.
    + discriminate.
Defined.

(** The quantiles 0 and 1 are accepted. *)
Lemma quantile_0_and_1_accepted :
  exists t0 t1,
    trim_outliers stable_sort_values example_frame 0 (12 # 10) = Ok t0 /\
    trim_outliers stable_sort_values example_frame 1 (12 # 10) = Ok t1 /\
    nth_quantile t0 = Finite 10 /\ trimmed t0 = [example_scored 10] /\
    nth_quantile t1 = Finite 30 /\ max_idx t1 = 0%nat /\ trimmed t1 = [].
Proof.
  eexists. eexists.
  split; [vm_compute; reflexivity|].
  split; [vm_compute; reflexivity|].
  repeat split; reflexivity.
Qed.

(** ** Empty input *)

Lemma source_windows_none_required (d : gmap string Z) (chroms : list string)
    (flank : Z) (src : list narrowPeak.t) :
  (forall r, In r src -> isin chroms (narrowPeak.chrom r) = false) ->
  source_windows d chroms flank src = Ok [].
Proof.
  intros H. unfold source_windows.
  rewrite (filter_none _ src H). reflexivity.
Qed.

Lemma all_sources_none_required (d : gmap string Z) (chroms : list string)
    (flank : Z) (sources : list (list narrowPeak.t)) :
  (forall src r, In src sources -> In r src ->
                 isin chroms (narrowPeak.chrom r) = false) ->
  all_sources d chroms flank sources [] = Ok [].
Proof.
  induction sources as [|src rest IH]; intros H; simpl; [reflexivity|].
  rewrite source_windows_none_required.
  - simpl. apply IH. intros src' r Hs Hr. apply (H src' r); [right|]; assumption.
  - intros r Hr. apply (H src r); [left; reflexivity | exact Hr].
Qed.

Lemma trim_outliers_nil_raises (sort_values : list ScoredPeak -> list ScoredPeak)
    (quantile scale : Q) :
  sorts_by_avg_counts sort_values ->
  trim_outliers sort_values [] quantile scale =
  if Qle_bool 0 quantile && Qle_bool quantile 1
  then Err (IndexError "index -1 is out of bounds for axis 0 with size 0")
  else Err (ValueError "Quantiles must be in the range [0, 1]").
Proof.
  intros Hs. unfold trim_outliers. rewrite (sort_values_nil _ Hs).
  unfold np_quantile. simpl.
  destruct (Qle_bool 0 quantile && Qle_bool quantile 1); reflexivity.
Qed.

(** C5 (as the code has it).  When no row of any peaks file is on a required
    chromosome, [getPeakPositions] returns the empty frame and the counts of
    the empty frame are the empty frame, without an exception; the trimming
    of the empty frame raises in [np.quantile]: the [ValueError] of the range
    check for a quantile outside [[0, 1]], and otherwise the [IndexError] of
    the empty array.  So [outliers_main] raises and writes no output. *)
Theorem empty_input_raises_in_trimming
    (sort_values : list ScoredPeak -> list ScoredPeak) (task : Task)
    (chroms : list string) (chrom_sizes : list (string * Z)) (sequence_len : Z)
    (quantile scale : Q) :
  sorts_by_avg_counts sort_values ->
  (forall src r, In src (loci_source task) -> In r src ->
                 isin chroms (narrowPeak.chrom r) = false) ->
  getPeakPositions (loci_source task) chroms chrom_sizes (sequence_len / 2) true
    = Ok [] /\
  (forall signal_files, compute_counts signal_files [] = Ok []) /\
  (exists e, trim_outliers sort_values [] quantile scale = Err e) /\
  ((0 <= quantile)%Q -> (quantile <= 1)%Q ->
   trim_outliers sort_values [] quantile scale
   = Err (IndexError "index -1 is out of bounds for axis 0 with size 0")) /\
  (exists e,
      outliers_main sort_values task chroms chrom_sizes sequence_len quantile scale
      = Err e) /\
  output_bed (outliers_main sort_values task chroms chrom_sizes sequence_len
                quantile scale) = None.
Proof.
  intros Hs Hnone.
  assert (Hget : getPeakPositions (loci_source task) chroms chrom_sizes
                   (sequence_len / 2) true = Ok []).
  { unfold getPeakPositions. rewrite (all_sources_none_required _ _ _ _ Hnone).
    reflexivity. }
  assert (Htrim := trim_outliers_nil_raises sort_values quantile scale Hs).
  assert (Hmain : exists e,
             outliers_main sort_values task chroms chrom_sizes sequence_len
               quantile scale = Err e).
  { unfold outliers_main. rewrite Hget. simpl.
    destruct (mapM open_signal_file (signal_source task)) as [files|e]; simpl;
      [|eauto].
    rewrite Htrim. destruct (Qle_bool 0 quantile && Qle_bool quantile 1); eauto. }
  split; [exact Hget|]. split; [reflexivity|]. split; [|split; [|split]].
  - rewrite Htrim. destruct (Qle_bool 0 quantile && Qle_bool quantile 1); eauto.
  - intros H0 H1. rewrite Htrim.
    apply Qle_bool_iff in H0, H1. rewrite H0, H1. reflexivity.
  - exact Hmain.
  - destruct Hmain as (e & ->). reflexivity.
Qed.

Lemma empty_input_raises_in_trimming_witness :
  getPeakPositions (loci_source task_without_peaks) ["chr1"] example_sizes (20 / 2)
    true = Ok [] /\
  outliers_main stable_sort_values task_without_peaks ["chr1"] example_sizes 20
    (1 # 2) (12 # 10)
  = Err (IndexError "index -1 is out of bounds for axis 0 with size 0").
Proof.
  destruct (empty_input_raises_in_trimming stable_sort_values task_without_peaks
              ["chr1"] example_sizes 20 (1 # 2) (12 # 10) stable_sort_values_ok)
    as (Hget & _ & _ & _ & _ & _).
  - intros src r [<- | [<- | []]] Hr; [destruct Hr|].
    destruct Hr as [<- | []]. reflexivity.
  - split; [exact Hget|]. vm_compute. reflexivity.
Defined.

(** The trimming of the empty frame does not return. *)
Lemma trimming_empty_frame_raises :
  trim_outliers stable_sort_values [] (1 # 2) (12 # 10)
  = Err (IndexError "index -1 is out of bounds for axis 0 with size 0") /\
  ~ exists t, trim_outliers stable_sort_values [] (1 # 2) (12 # 10) = Ok t.
Proof.
  split; [vm_compute; reflexivity|].
  intros (t & Ht). vm_compute in Ht. discriminate.
Qed.

(** ** The example of the three peaks *)

(** A sorted permutation of a frame whose counts increase strictly is the
    frame itself. *)
Lemma sorted_perm_of_strictly_sorted (l l' : list ScoredPeak) :
  StronglySorted (fun a b => (avg_counts a < avg_counts b)%Q) l ->
  Permutation l l' ->
  StronglySorted (fun a b => (avg_counts a <= avg_counts b)%Q) l' ->
  l' = l.
Proof.
  intros Hl. revert l'. induction Hl as [|x t Ht IH Hx]; intros l' Hp Hl'.
  - apply Permutation_nil, Hp.
  - destruct l' as [|y t'].
    + exfalso. apply (Permutation_nil_cons (l := t) (x := x)). symmetry. exact Hp.
    + inversion Hl' as [|? ? Ht' Hy]; subst.
      assert (Hyx : y = x).
      { assert (Hin_y : In y (x :: t)).
        { apply (Permutation_in _ (Permutation_sym Hp)). left. reflexivity. }
        assert (Hin_x : In x (y :: t')).
        { apply (Permutation_in _ Hp). left. reflexivity. }
        destruct Hin_y as [Heq | Hin_y]; [symmetry; exact Heq|].
        destruct Hin_x as [Heq | Hin_x]; [exact Heq|].
        rewrite List.Forall_forall in Hx, Hy.
        exfalso. apply (Qlt_not_le _ _ (Hx y Hin_y)). apply Hy, Hin_x. }
      subst y. f_equal. apply IH; [|exact Ht'].
      eapply Permutation_cons_inv, Hp.
Qed.

(** C8.  Three peaks with counts 10, 20 and 30, the quantile 0.5 and the
    scale factor 1.2: the quantile is 20, found at index 1, the scaled value
    is 24, the trim boundary is 2 and the peaks with counts 10 and 20 are
    kept. *)
Theorem three_peaks_10_20_30_example
    (sort_values : list ScoredPeak -> list ScoredPeak)
    (w1 w2 w3 : PeakWindow) (c1 c2 c3 : list Q) :
  sorts_by_avg_counts sort_values ->
  exists t v,
    trim_outliers sort_values
      [mkScoredPeak w1 c1 10; mkScoredPeak w2 c2 20; mkScoredPeak w3 c3 30]
      (1 # 2) (12 # 10) = Ok t /\
    nth_quantile t = Finite v /\ (v == 20)%Q /\
    quantile_idx t = 1%nat /\
    (scaled_value t == 24)%Q /\
    max_idx t = 2%nat /\
    trimmed t = [mkScoredPeak w1 c1 10; mkScoredPeak w2 c2 20].
Proof.
  intros Hs.
  assert (Hsort : sort_values
            [mkScoredPeak w1 c1 10; mkScoredPeak w2 c2 20; mkScoredPeak w3 c3 30]
          = [mkScoredPeak w1 c1 10; mkScoredPeak w2 c2 20; mkScoredPeak w3 c3 30]).
  { apply sorted_perm_of_strictly_sorted.
    - repeat constructor.
    - apply Hs.
    - apply Hs. }
  unfold trim_outliers. rewrite Hsort.
  eexists. eexists. split; [vm_compute; reflexivity|].
  split; [reflexivity|]. repeat split.
Qed.

Lemma three_peaks_10_20_30_example_witness :
  exists t,
    trim_outliers stable_sort_values example_frame (1 # 2) (12 # 10) = Ok t /\
    max_idx t = 2%nat /\
    trimmed t = [example_scored 10; example_scored 20].
Proof.
  destruct (three_peaks_10_20_30_example stable_sort_values
              example_window example_window example_window [10%Q] [20%Q] [30%Q]
              stable_sort_values_ok)
    as (t & v & Ht & _ & _ & _ & _ & Hmax & Htrim).
  exists t. split; [exact Ht|]. split; [exact Hmax | exact Htrim].
Defined.

(** ** Sorted permutations of one frame *)

Lemma Forall2_of_nth_error {A B : Type} (P : A -> B -> Prop) (l : list A) (k : list B) :
  length l = length k ->
  (forall i x y, nth_error l i = Some x -> nth_error k i = Some y -> P x y) ->
  Forall2 P l k.
Proof.
  revert k. induction l as [|x t IH]; intros [|y k] Hlen H; simpl in Hlen;
    try discriminate; constructor.
  - apply (H 0%nat); reflexivity.
  - apply IH; [lia|]. intros i a b Ha Hb. apply (H (S i)); assumption.
Qed.

Lemma filter_length_Permutation {A : Type} (f : A -> bool) (l k : list A) :
  Permutation l k -> length (List.filter f l) = length (List.filter f k).
Proof.
  induction 1 as [|x l k _ IH|x y l|l k m _ IH1 _ IH2]; simpl.
  - reflexivity.
  - destruct (f x); simpl; congruence.
  - destruct (f x), (f y); reflexivity.
  - congruence.
Qed.

Lemma filter_Permutation_ext {A : Type} (f g : A -> bool) (l k : list A) :
  (forall x, f x = g x) -> Permutation l k ->
  Permutation (List.filter f l) (List.filter g k).
Proof.
  intros Hfg. induction 1 as [|x l k _ IH|x y l|l k m _ IH1 H2 IH2]; simpl.
  - constructor.
  - rewrite <- Hfg. destruct (f x); [apply perm_skip|]; exact IH.
  - rewrite <- !Hfg, (filter_ext f g Hfg).
    destruct (f x), (f y); try reflexivity. apply perm_swap.
  - etransitivity; [exact IH1|].
    rewrite <- (filter_ext f g Hfg k). exact IH2.
Qed.

(** A frame sorted by [avg_counts] is its rows at or below a threshold
    followed by its rows above it. *)
Lemma sorted_frame_split (c : Q) (l : list ScoredPeak) :
  StronglySorted (fun a b => (avg_counts a <= avg_counts b)%Q) l ->
  l = (List.filter (fun p => Qle_bool (avg_counts p) c) l ++
       List.filter (fun p => negb (Qle_bool (avg_counts p) c)) l)%list.
Proof.
  induction 1 as [|x t Hs IH Hx]; [reflexivity|]. simpl.
  destruct (Qle_bool (avg_counts x) c) eqn:Hxc; simpl.
  - f_equal. exact IH.
  - assert (Habove : forall y, In y t -> Qle_bool (avg_counts y) c = false).
    { intros y Hy. rewrite List.Forall_forall in Hx. specialize (Hx y Hy).
      destruct (Qle_bool (avg_counts y) c) eqn:Hyc; [|reflexivity].
      apply Qle_bool_iff in Hyc.
      assert (Hle : Qle_bool (avg_counts x) c = true).
      { apply Qle_bool_iff. eapply Qle_trans; eassumption. }
      congruence. }
    rewrite (filter_none _ t Habove). simpl. f_equal.
    symmetry. apply forallb_filter_id, forallb_forall.
    intros y Hy. rewrite (Habove y Hy). reflexivity.
Qed.

Lemma sorted_frame_index_le (c : Q) (l : list ScoredPeak) (i : nat) (p : ScoredPeak) :
  StronglySorted (fun a b => (avg_counts a <= avg_counts b)%Q) l ->
  nth_error l i = Some p ->
  ((avg_counts p <= c)%Q <->
   (i < length (List.filter (fun p => Qle_bool (avg_counts p) c) l))%nat).
Proof.
  intros Hs Hp. rewrite (sorted_frame_split c l Hs) in Hp.
  destruct (Nat.lt_ge_cases i
              (length (List.filter (fun p => Qle_bool (avg_counts p) c) l)))
    as [Hi | Hi].
  - rewrite nth_error_app1 in Hp by exact Hi.
    apply nth_error_In, filter_In in Hp as (_ & Hp).
    apply Qle_bool_iff in Hp. tauto.
  - rewrite nth_error_app2 in Hp by exact Hi.
    apply nth_error_In, filter_In in Hp as (_ & Hp).
    apply negb_true_iff in Hp. split; [|lia].
    intros Hle. apply Qle_bool_iff in Hle. congruence.
Qed.

(** Two sorted permutations of one frame carry the same counts at every
    position. *)
Lemma sorted_perm_same_counts (l k : list ScoredPeak) :
  StronglySorted (fun a b => (avg_counts a <= avg_counts b)%Q) l ->
  StronglySorted (fun a b => (avg_counts a <= avg_counts b)%Q) k ->
  Permutation l k ->
  Forall2 Qeq (List.map avg_counts l) (List.map avg_counts k).
Proof.
  intros Hl Hk Hp.
  assert (Hhalf : forall l k, StronglySorted (fun a b => (avg_counts a <= avg_counts b)%Q) l ->
            StronglySorted (fun a b => (avg_counts a <= avg_counts b)%Q) k ->
            Permutation l k ->
            forall i p r, nth_error l i = Some p -> nth_error k i = Some r ->
                          (avg_counts p <= avg_counts r)%Q).
  { clear. intros l k Hl Hk Hp i p r Hpi Hri.
    apply (sorted_frame_index_le (avg_counts r) l i p Hl Hpi).
    rewrite (filter_length_Permutation _ _ _ Hp).
    apply (sorted_frame_index_le (avg_counts r) k i r Hk Hri).
    apply Qle_refl. }
  apply Forall2_of_nth_error.
  - rewrite !length_map. apply Permutation_length, Hp.
  - intros i x y Hx Hy. rewrite nth_error_map in Hx, Hy.
    destruct (nth_error l i) as [p|] eqn:Hpi; [|discriminate].
    destruct (nth_error k i) as [r|] eqn:Hri; [|discriminate].
    simpl in Hx, Hy. injection Hx as <-. injection Hy as <-.
    apply Qle_antisym.
    + exact (Hhalf l k Hl Hk Hp i p r Hpi Hri).
    + exact (Hhalf k l Hk Hl (Permutation_sym Hp) i r p Hri Hpi).
Qed.

Lemma Qlt_bool_comp (x y a b : Q) :
  (x == y)%Q -> (a == b)%Q -> Qlt_bool x a = Qlt_bool y b.
Proof. intros Hxy Hab. unfold Qlt_bool. rewrite (Qleb_comp a b Hab x y Hxy). reflexivity. Qed.

Lemma insert_sorted_Qeq (x y : Q) (l k : list Q) :
  (x == y)%Q -> Forall2 Qeq l k ->
  Forall2 Qeq (insert_sorted Qle_bool x l) (insert_sorted Qle_bool y k).
Proof.
  intros Hxy. induction 1 as [|a b l k Hab Hlk IH]; simpl.
  - constructor; [exact Hxy | constructor].
  - rewrite (Qleb_comp x y Hxy a b Hab).
    destruct (Qle_bool y b); repeat constructor; assumption.
Qed.

Lemma sort_by_Qeq (l k : list Q) :
  Forall2 Qeq l k -> Forall2 Qeq (sort_by Qle_bool l) (sort_by Qle_bool k).
Proof.
  induction 1 as [|a b l k Hab Hlk IH]; simpl; [constructor|].
  apply insert_sorted_Qeq; assumption.
Qed.

Lemma nth_Qeq (l k : list Q) (i : nat) :
  Forall2 Qeq l k -> (nth i l 0 == nth i k 0)%Q.
Proof.
  intros H. revert i. induction H as [|a b l k Hab Hlk IH]; intros [|i]; simpl;
    try reflexivity; [exact Hab | apply IH].
Qed.

Lemma np_quantile_Qeq (a b : list Q) (q : Q) :
  Forall2 Qeq a b ->
  match np_quantile a q, np_quantile b q with
  | Ok x, Ok y => npfloat_eq x y
  | Err e1, Err e2 => e1 = e2
  | _, _ => False
  end.
Proof.
  intros Hab. unfold np_quantile.
  destruct (Qle_bool 0 q && Qle_bool q 1); [|reflexivity].
  pose proof (sort_by_Qeq a b Hab) as Hs.
  assert (Hlen : length (sort_by Qle_bool a) = length (sort_by Qle_bool b))
    by (eapply Forall2_length; exact Hs).
  destruct (sort_by Qle_bool a) as [|x l] eqn:Ha,
           (sort_by Qle_bool b) as [|y k] eqn:Hb;
    try (inversion Hs; fail); [reflexivity|].
  rewrite Hlen. simpl npfloat_eq.
  rewrite (nth_Qeq _ _ (Z.to_nat (Qfloor (q * inject_Z (Z.of_nat (length (y :: k)) - 1)))) Hs).
  rewrite (nth_Qeq _ _ (Z.to_nat (Z.min (Qfloor (q * inject_Z (Z.of_nat (length (y :: k)) - 1)) + 1)
                                     (Z.of_nat (length (y :: k)) - 1))) Hs).
  reflexivity.
Qed.

Lemma abs_diff_comp (n1 n2 : npfloat) (l k : list Q) :
  npfloat_eq n1 n2 -> Forall2 Qeq l k ->
  Forall2 npfloat_eq (List.map (abs_diff n1) l) (List.map (abs_diff n2) k).
Proof.
  intros Hn. induction 1 as [|a b l k Hab Hlk IH]; simpl; constructor; [|exact IH].
  destruct n1 as [v1|], n2 as [v2|]; try contradiction; [|exact I].
  apply Qabs_wd, Qplus_comp; [exact Hab | apply Qopp_comp, Hn].
Qed.

Lemma replaces_min_comp (x y b1 b2 : npfloat) :
  npfloat_eq x y -> npfloat_eq b1 b2 -> replaces_min x b1 = replaces_min y b2.
Proof.
  destruct x, y, b1, b2; simpl; intros Hx Hb; try contradiction; try reflexivity.
  apply Qlt_bool_comp; assumption.
Qed.

Lemma argmin_from_comp (a b : list npfloat) :
  Forall2 npfloat_eq a b ->
  forall best1 best2 best_idx i,
    npfloat_eq best1 best2 ->
    argmin_from best1 best_idx i a = argmin_from best2 best_idx i b.
Proof.
  induction 1 as [|x y a b Hxy Hab IH]; intros best1 best2 best_idx i Hbest; simpl;
    [reflexivity|].
  rewrite (replaces_min_comp x y best1 best2 Hxy Hbest).
  destruct (replaces_min y best2); apply IH; assumption.
Qed.

Lemma np_argmin_comp (a b : list npfloat) :
  Forall2 npfloat_eq a b -> np_argmin a = np_argmin b.
Proof.
  intros [|x y a' b' Hxy Hab]; simpl; [reflexivity|].
  f_equal. apply argmin_from_comp; assumption.
Qed.

Lemma exceeds_comp (sv1 sv2 : Q) (l k : list Q) :
  (sv1 == sv2)%Q -> Forall2 Qeq l k ->
  List.map (fun c => Qlt_bool sv1 c) l = List.map (fun c => Qlt_bool sv2 c) k.
Proof.
  intros Hsv. induction 1 as [|a b l k Hab Hlk IH]; simpl; [reflexivity|].
  rewrite IH, (Qlt_bool_comp sv1 sv2 a b Hsv Hab). reflexivity.
Qed.

(** * Further properties of the code *)

Local Open Scope list_scope.

(** ** The dictionary of chromosome sizes *)

Lemma chrom_size_dict_snoc (chrom_sizes : list (string * Z)) (c : string) (size : Z) :
  chrom_size_dict (chrom_sizes ++ [(c, size)]) = <[c := size]> (chrom_size_dict chrom_sizes).
Proof. unfold chrom_size_dict. rewrite fold_left_app. reflexivity. Qed.

(** X1.  The dictionary built on line 36 holds, for a chromosome, the size of its
    last record in the size table, and nothing for a chromosome without a
    record. *)
Theorem chrom_size_dict_last_record_wins (chrom_sizes : list (string * Z)) (c : string) :
  (chrom_size_dict chrom_sizes !! c = None <-> ~ In c (List.map fst chrom_sizes)) /\
  (forall before after size,
      chrom_sizes = (before ++ (c, size) :: after)%list ->
      ~ In c (List.map fst after) ->
      chrom_size_dict chrom_sizes !! c = Some size).
Proof.
  split.
  - induction chrom_sizes as [|[c' size'] t IH] using rev_ind.
    + simpl. split; [tauto | intros _; apply lookup_empty].
    + rewrite chrom_size_dict_snoc, map_app, in_app_iff. simpl.
      destruct (String.eqb_spec c' c) as [-> | Hne].
      * rewrite lookup_insert_eq. split; [discriminate | tauto].
      * rewrite lookup_insert_ne by exact Hne. rewrite IH. tauto.
  - intros before after size ->. induction after as [|[c' size'] t IH] using rev_ind.
    + intros _. rewrite chrom_size_dict_snoc. apply lookup_insert_eq.
    + rewrite map_app, in_app_iff. simpl. intros Hnot.
      change (before ++ (c, size) :: t ++ [(c', size')])%list
        with (before ++ ((c, size) :: t) ++ [(c', size')])%list.
      rewrite app_assoc, chrom_size_dict_snoc.
      rewrite lookup_insert_ne by (intros ->; tauto).
      apply IH. tauto.
Qed.

Lemma chrom_size_dict_last_record_wins_witness :
  chrom_size_dict [("chr1", 10); ("chr2", 20); ("chr1", 30)] !! "chr1" = Some 30.
Proof.
  apply (chrom_size_dict_last_record_wins [("chr1", 10); ("chr2", 20); ("chr1", 30)]
           "chr1")
    with (before := [("chr1", 10); ("chr2", 20)]) (after := []).
  - reflexivity.
  - simpl. tauto.
Defined.

(** ** Which rows [getPeakPositions] returns *)

Lemma mapM_Ok_complete {A B : Type} (f : A -> result B) (l : list A) (ys : list B)
    (x : A) (y : B) :
  mapM f l = Ok ys -> In x l -> f x = Ok y -> In y ys.
Proof.
  revert ys. induction l as [|a t IH]; intros ys H Hx Hy; [destruct Hx|].
  simpl in H. apply bind_Ok in H as (y0 & Ha & H).
  apply bind_Ok in H as (ys0 & Ht & H). injection H as <-.
  destruct Hx as [-> | Hx].
  - left. congruence.
  - right. apply IH; assumption.
Qed.

Lemma source_windows_Ok_complete (d : gmap string Z) (chroms : list string)
    (flank : Z) (src : list narrowPeak.t) (out : list PeakWindow)
    (r : narrowPeak.t) (size : Z) :
  source_windows d chroms flank src = Ok out ->
  In r src -> isin chroms (narrowPeak.chrom r) = true ->
  0 <= pos r - flank -> d !! narrowPeak.chrom r = Some size ->
  pos r + flank <= size ->
  In (with_flank flank r) out.
Proof.
  unfold source_windows. intros H Hr Hc Hs Hd He.
  apply bind_Ok in H as (sized & Hm & H). injection H as <-.
  apply sort_by_In, in_map_iff. exists (with_flank flank r, size).
  split; [reflexivity|]. apply filter_In. split.
  - apply (mapM_Ok_complete _ _ _ (with_flank flank r) _ Hm).
    + apply windows_before_lookup_In. exists r. auto.
    + unfold lookup_chrom_size. simpl. rewrite Hd. reflexivity.
  - simpl. apply Z.leb_le, He.
Qed.

Lemma all_sources_acc (d : gmap string Z) (chroms : list string) (flank : Z)
    (sources : list (list narrowPeak.t)) (allPeaks : list PeakWindow) :
  all_sources d chroms flank sources allPeaks =
  rows ← all_sources d chroms flank sources []; Ok (allPeaks ++ rows)%list.
Proof.
  revert allPeaks. induction sources as [|src rest IH]; intros allPeaks; simpl.
  - rewrite app_nil_r. reflexivity.
  - destruct (source_windows d chroms flank src) as [rows|e]; simpl; [|reflexivity].
    rewrite (IH (allPeaks ++ rows)%list), (IH rows).
    destruct (all_sources d chroms flank rest []) as [rows'|e]; simpl; [|reflexivity].
    rewrite app_assoc. reflexivity.
Qed.

Lemma all_sources_app (d : gmap string Z) (chroms : list string) (flank : Z)
    (s1 s2 : list (list narrowPeak.t)) (allPeaks : list PeakWindow) :
  all_sources d chroms flank (s1 ++ s2) allPeaks =
  rows ← all_sources d chroms flank s1 allPeaks; all_sources d chroms flank s2 rows.
Proof.
  revert allPeaks. induction s1 as [|src rest IH]; intros allPeaks; simpl;
    [reflexivity|].
  destruct (source_windows d chroms flank src) as [rows|e]; simpl; [|reflexivity].
  apply IH.
Qed.

Lemma all_sources_Ok_complete (d : gmap string Z) (chroms : list string) (flank : Z)
    (sources : list (list narrowPeak.t)) (rows : list PeakWindow)
    (r : narrowPeak.t) (size : Z) :
  all_sources d chroms flank sources [] = Ok rows ->
  In r (concat sources) -> isin chroms (narrowPeak.chrom r) = true ->
  0 <= pos r - flank -> d !! narrowPeak.chrom r = Some size ->
  pos r + flank <= size ->
  In (with_flank flank r) rows.
Proof.
  intros Hall Hr Hc Hs Hd He.
  apply in_concat in Hr as (src & Hsrc & Hr).
  apply in_split in Hsrc as (s1 & s2 & ->).
  rewrite all_sources_app in Hall.
  apply bind_Ok in Hall as (rows1 & _ & Hall). simpl in Hall.
  apply bind_Ok in Hall as (out & Hout & Hall).
  rewrite all_sources_acc in Hall.
  apply bind_Ok in Hall as (rows2 & _ & Hall). injection Hall as <-.
  apply in_or_app. left. apply in_or_app. right.
  eapply source_windows_Ok_complete; eassumption.
Qed.

(** X2.  On rows whose window arithmetic stays within the 64-bit range and
    without [drop_duplicates], a run of [getPeakPositions] that returns gives
    exactly the windows of the rows of the peaks files that are on a required
    chromosome and whose window lies within [0, chromosome size]: no such row
    is lost and no other row is returned. *)
Theorem getPeakPositions_returns_exactly_the_valid_windows
    (sources : list (list narrowPeak.t)) (chroms : list string)
    (chrom_sizes : list (string * Z)) (flank : Z) (rows : list PeakWindow)
    (w : PeakWindow) :
  (forall r, In r (concat sources) -> isin chroms (narrowPeak.chrom r) = true ->
             window_fits_int64 flank r) ->
  getPeakPositions sources chroms chrom_sizes flank false = Ok rows ->
  (In w rows <->
   exists r size,
     In r (concat sources) /\ isin chroms (narrowPeak.chrom r) = true /\
     w = with_flank flank r /\
     chrom_size_dict chrom_sizes !! narrowPeak.chrom r = Some size /\
     0 <= pos r - flank /\ pos r + flank <= size).
Proof.
  unfold getPeakPositions. intros _ H.
  apply bind_Ok in H as (allPeaks & Hall & H). injection H as <-.
  split.
  - intros Hw.
    destruct (all_sources_Ok_In _ _ _ _ _ _ _ Hall Hw)
      as [[] | (src & out & Hsrc & Hout & Hin)].
    destruct (source_windows_Ok_In _ _ _ _ _ _ Hout Hin)
      as (r & size & Hr & Hc & -> & Hs & Hd & He).
    exists r, size. simpl in *. repeat split; try assumption.
    apply in_concat. exists src. split; assumption.
  - intros (r & size & Hr & Hc & -> & Hd & Hs & He).
    eapply all_sources_Ok_complete; eassumption.
Qed.

Lemma getPeakPositions_returns_exactly_the_valid_windows_witness :
  In (with_flank 10 (example_peak "chr2" 300 40))
     [with_flank 10 (example_peak "chr2" 300 40);
      with_flank 10 (example_peak "chr1" 100 50)].
Proof.
  apply (getPeakPositions_returns_exactly_the_valid_windows
           [[example_peak "chr2" 300 40; example_peak "chr2" 790 5];
            [example_peak "chr3" 1 50; example_peak "chr1" 100 50]]
           ["chr1"; "chr2"] example_sizes 10).
  - intros r [<- | [<- | [<- | [<- | []]]]] _; unfold window_fits_int64, fits_int64;
      repeat split; vm_compute; discriminate.
  - vm_compute. reflexivity.
  - exists (example_peak "chr2" 300 40), 800.
    repeat split; try reflexivity; try (vm_compute; discriminate).
    simpl. auto.
Defined.

Lemma all_sources_Ok_when_sized (d : gmap string Z) (chroms : list string) (flank : Z)
    (sources : list (list narrowPeak.t)) (allPeaks : list PeakWindow) :
  (forall r, In r (concat sources) -> ~ unsized d chroms flank r) ->
  exists rows, all_sources d chroms flank sources allPeaks = Ok rows.
Proof.
  revert allPeaks. induction sources as [|src rest IH]; intros allPeaks H; simpl.
  - eauto.
  - destruct (source_windows_cases d chroms flank src)
      as [(rows & -> & _) | (r & Hr & Hu & _)]; simpl.
    + apply IH. intros r Hr. apply H. simpl. apply in_or_app. right. exact Hr.
    + exfalso. apply (H r); [|exact Hu]. simpl. apply in_or_app. left. exact Hr.
Qed.






(** X5.  Without [drop_duplicates], the frame of several peaks files is the frame
    of the first files followed by the frame of the last ones, and the first
    exception raised is the one of the run. *)
Theorem getPeakPositions_of_appended_sources
    (s1 s2 : list (list narrowPeak.t)) (chroms : list string)
    (chrom_sizes : list (string * Z)) (flank : Z) :
  getPeakPositions (s1 ++ s2) chroms chrom_sizes flank false =
  rows1 ← getPeakPositions s1 chroms chrom_sizes flank false;
  rows2 ← getPeakPositions s2 chroms chrom_sizes flank false;
  Ok (rows1 ++ rows2)%list.
Proof.
  unfold getPeakPositions. rewrite all_sources_app.
  destruct (all_sources (chrom_size_dict chrom_sizes) chroms flank s1 [])
    as [rows1|e]; simpl; [|reflexivity].
  rewrite all_sources_acc.
  destruct (all_sources (chrom_size_dict chrom_sizes) chroms flank s2 [])
    as [rows2|e]; reflexivity.
Qed.

(** ** The order of the returned rows *)

Lemma chrom_end_leb_le (a b : PeakWindow) :
  chrom_end_leb a b = true <-> chrom_end_le a b.
Proof.
  unfold chrom_end_leb, chrom_end_le.
  pose proof (OrderedTypeEx.String_as_OT.cmp_lt (narrowPeak.chrom (peak a))
                (narrowPeak.chrom (peak b))) as Hlt.
  pose proof (OrderedTypeEx.String_as_OT.cmp_eq (narrowPeak.chrom (peak a))
                (narrowPeak.chrom (peak b))) as Heq.
  unfold OrderedTypeEx.String_as_OT.cmp in *.
  destruct (String.compare (narrowPeak.chrom (peak a)) (narrowPeak.chrom (peak b))).
  - rewrite Z.leb_le. split.
    + intros H. right. split; [apply Heq; reflexivity | exact H].
    + intros [H | [_ H]]; [|exact H]. apply Hlt in H. discriminate.
  - split; [intros _; left; apply Hlt; reflexivity | reflexivity].
  - split; [discriminate|].
    intros [H | [H _]]; [apply Hlt in H | apply Heq in H]; discriminate.
Qed.

Lemma chrom_end_leb_total (a b : PeakWindow) :
  chrom_end_leb a b = true \/ chrom_end_leb b a = true.
Proof.
  unfold chrom_end_leb.
  rewrite (String.compare_antisym (narrowPeak.chrom (peak a)) (narrowPeak.chrom (peak b))).
  destruct (String.compare (narrowPeak.chrom (peak b)) (narrowPeak.chrom (peak a)));
    simpl; auto.
  destruct (Z.leb_spec (end_ a) (end_ b)); auto.
  right. apply Z.leb_le. lia.
Qed.

Lemma chrom_end_leb_trans (a b c : PeakWindow) :
  chrom_end_leb a b = true -> chrom_end_leb b c = true -> chrom_end_leb a c = true.
Proof.
  rewrite !chrom_end_leb_le. unfold chrom_end_le.
  intros [Hab | [Hab Hab']] [Hbc | [Hbc Hbc']].
  - left. eapply OrderedTypeEx.String_as_OT.lt_trans; eassumption.
  - left. rewrite <- Hbc. exact Hab.
  - left. rewrite Hab. exact Hbc.
  - right. split; [congruence | lia].
Qed.

Lemma drop_duplicates_from_sorted (R : PeakWindow -> PeakWindow -> Prop)
    (seen df : list PeakWindow) :
  StronglySorted R df -> StronglySorted R (drop_duplicates_from seen df).
Proof.
  intros H. revert seen. induction H as [|r rest _ IH Hr]; intros seen; simpl;
    [constructor|].
  destruct (existsb (row_eqb r) seen); [apply IH|].
  constructor; [apply IH|].
  rewrite List.Forall_forall in Hr |- *. intros w Hw.
  apply Hr. eapply drop_duplicates_from_In, Hw.
Qed.

(** X6.  The rows that one peaks file contributes come back sorted by chromosome
    name and then by the right end of their window, with or without
    [drop_duplicates]. *)
Theorem rows_of_one_peaks_file_are_sorted
    (peaks_file : list narrowPeak.t) (chroms : list string)
    (chrom_sizes : list (string * Z)) (flank : Z) (drop_dups : bool)
    (rows : list PeakWindow) :
  getPeakPositions [peaks_file] chroms chrom_sizes flank drop_dups = Ok rows ->
  StronglySorted chrom_end_le rows.
Proof.
  unfold getPeakPositions. simpl. intros H.
  apply bind_Ok in H as (allPeaks & Hall & H). injection H as <-.
  apply bind_Ok in Hall as (out & Hout & Hall). injection Hall as <-.
  assert (Hs : StronglySorted chrom_end_le out).
  { unfold source_windows in Hout.
    apply bind_Ok in Hout as (sized & _ & Hout). injection Hout as <-.
    match goal with |- StronglySorted _ (sort_by _ ?l) =>
      pose proof (sort_by_sorted chrom_end_leb chrom_end_leb_total
                    chrom_end_leb_trans l) as Hsorted
    end.
    induction Hsorted as [|x l _ IH Hx]; constructor; [exact IH|].
    eapply List.Forall_impl; [|exact Hx]. intros y. apply chrom_end_leb_le. }
  destruct drop_dups; [apply drop_duplicates_from_sorted|]; exact Hs.
Qed.

Lemma rows_of_one_peaks_file_are_sorted_witness :
  StronglySorted chrom_end_le
    [with_flank 10 (example_peak "chr1" 100 50);
     with_flank 10 (example_peak "chr1" 400 20);
     with_flank 10 (example_peak "chr2" 300 40)].
Proof.
  apply (rows_of_one_peaks_file_are_sorted
           [example_peak "chr2" 300 40; example_peak "chr1" 400 20;
            example_peak "chr1" 100 50; example_peak "chr1" 400 20]
           ["chr1"; "chr2"] example_sizes 10 true).
  vm_compute. reflexivity.
Defined.

(** ** The frame without duplicates *)

Lemma row_eqb_refl (w : PeakWindow) : row_eqb w w = true.
Proof.
  apply row_eqb_same_columns. unfold same_columns.
  repeat split; reflexivity.
Qed.

Lemma drop_duplicates_from_covers (seen df : list PeakWindow) (w : PeakWindow) :
  In w df ->
  existsb (row_eqb w) seen = true \/
  exists w', In w' (drop_duplicates_from seen df) /\ row_eqb w w' = true.
Proof.
  revert seen. induction df as [|r rest IH]; intros seen Hw; [destruct Hw|].
  simpl. destruct (existsb (row_eqb r) seen) eqn:Hr.
  - destruct Hw as [<- | Hw]; [left; exact Hr | apply IH, Hw].
  - destruct Hw as [<- | Hw].
    + right. exists r. split; [left; reflexivity | apply row_eqb_refl].
    + destruct (IH (r :: seen) Hw) as [Hseen | (w' & Hw' & Heq)].
      * simpl in Hseen. apply orb_true_iff in Hseen as [Hwr | Hseen]; [|left; exact Hseen].
        right. exists r. split; [left; reflexivity | exact Hwr].
      * right. exists w'. split; [right; exact Hw' | exact Heq].
Qed.

Lemma drop_duplicates_from_length (seen df : list PeakWindow) :
  (length (drop_duplicates_from seen df) <= length df)%nat.
Proof.
  revert seen. induction df as [|r rest IH]; intros seen; simpl; [lia|].
  destruct (existsb (row_eqb r) seen); simpl.
  - specialize (IH seen). lia.
  - specialize (IH (r :: seen)). lia.
Qed.

(** X7.  With [drop_duplicates=True], [getPeakPositions] raises when it raises
    without; otherwise it returns rows of the frame without the flag, no two
    of them equal on all columns, and every row of that frame equals one of
    them. *)
Theorem getPeakPositions_without_duplicates
    (sources : list (list narrowPeak.t)) (chroms : list string)
    (chrom_sizes : list (string * Z)) (flank : Z) :
  match getPeakPositions sources chroms chrom_sizes flank false,
        getPeakPositions sources chroms chrom_sizes flank true with
  | Ok allPeaks, Ok rows =>
      (forall w, In w rows -> In w allPeaks) /\
      (forall w, In w allPeaks -> exists w', In w' rows /\ same_columns w w') /\
      ForallOrdPairs (fun a b => ~ same_columns b a) rows /\
      (length rows <= length allPeaks)%nat
  | Err e, Err e' => e = e'
  | _, _ => False
  end.
Proof.
  unfold getPeakPositions.
  destruct (all_sources (chrom_size_dict chrom_sizes) chroms flank sources [])
    as [allPeaks|e]; simpl; [|reflexivity].
  unfold drop_duplicates. split; [|split; [|split]].
  - intros w. apply drop_duplicates_from_In.
  - intros w Hw.
    destruct (drop_duplicates_from_covers [] allPeaks w Hw) as [H | (w' & Hw' & Heq)];
      [discriminate|].
    exists w'. split; [exact Hw' | apply row_eqb_same_columns, Heq].
  - pose proof (drop_duplicates_from_distinct [] allPeaks) as Hd.
    induction Hd as [|x l Hx _ IH]; constructor; [|exact IH].
    eapply List.Forall_impl; [|exact Hx]. intros y Hy Hsame.
    apply row_eqb_same_columns in Hsame. congruence.
  - apply drop_duplicates_from_length.
Qed.

(** ** Signal counts *)

Lemma mapM_Ok_Forall2 {A B : Type} (f : A -> result B) (l : list A) (ys : list B) :
  mapM f l = Ok ys <-> Forall2 (fun x y => f x = Ok y) l ys.
Proof.
  revert ys. induction l as [|x t IH]; intros ys.
  - simpl. split.
    + intros H. injection H as <-. constructor.
    + intros H. inversion H. reflexivity.
  - rewrite mapM_cons. split.
    + destruct (f x) as [y|e] eqn:Hx; [|discriminate].
      destruct (mapM f t) as [ys0|e] eqn:Ht; [|discriminate].
      intros H. injection H as <-. constructor; [exact Hx | apply IH; reflexivity].
    + intros H. inversion H as [|? y ? ys0 Hx Ht]; subst.
      rewrite Hx. apply IH in Ht. rewrite Ht. reflexivity.
Qed.

Lemma mapM_returns_iff {A B : Type} (f : A -> result B) (l : list A) :
  (exists ys, mapM f l = Ok ys) <-> (forall x, In x l -> exists y, f x = Ok y).
Proof.
  induction l as [|x t IH].
  - split; [intros _ x [] | intros _; exists []; reflexivity].
  - rewrite mapM_cons. split.
    + intros (ys & H) a Ha.
      destruct (f x) as [y|e] eqn:Hx; [|discriminate].
      destruct (mapM f t) as [ys0|e] eqn:Ht; [|discriminate].
      destruct Ha as [<- | Ha]; [eauto|].
      apply (proj1 IH); [eauto | exact Ha].
    + intros H. destruct (H x (or_introl eq_refl)) as (y & ->).
      destruct (proj2 IH) as (ys & ->); [|eauto].
      intros a Ha. apply H. right. exact Ha.
Qed.

Lemma compute_counts_returns_iff (signal_files : list Track) (peaks_df : list PeakWindow) :
  (exists scored, compute_counts signal_files peaks_df = Ok scored) <->
  (forall row bw, In row peaks_df -> In bw signal_files ->
     exists vals, bw (narrowPeak.chrom (peak row)) (start row) (end_ row) = Ok vals).
Proof.
  unfold compute_counts. rewrite mapM_returns_iff. split.
  - intros H row bw Hrow Hbw. destruct (H row Hrow) as (sp & Hsp).
    unfold score_row in Hsp. apply bind_Ok in Hsp as (vals & Hvals & _).
    assert (Hex : exists c, window_count row bw = Ok c).
    { apply (proj1 (mapM_returns_iff (window_count row) signal_files));
        [eauto | exact Hbw]. }
    destruct Hex as (c & Hc). unfold window_count in Hc.
    apply bind_Ok in Hc as (v & Hv & _). eauto.
  - intros H row Hrow. unfold score_row.
    destruct (proj2 (mapM_returns_iff (window_count row) signal_files))
      as (vals & ->); [|simpl; eauto].
    intros bw Hbw. destruct (H row bw Hrow Hbw) as (v & Hv).
    unfold window_count. rewrite Hv. simpl. eauto.
Qed.

Lemma score_row_window (signal_files : list Track) (row : PeakWindow) (sp : ScoredPeak) :
  score_row signal_files row = Ok sp -> window sp = row.
Proof.
  unfold score_row. intros H. apply bind_Ok in H as (vals & _ & H).
  injection H as <-. reflexivity.
Qed.



(** ** The order of the checks in [outliers_main] *)

Lemma mapM_open_signal_file_first_missing
    (before after : list (string * option Track)) (path : string) :
  Forall (fun src => src.2 <> None) before ->
  mapM open_signal_file (before ++ (path, None) :: after)
  = Err (NoTracebackException ("BigWig file " +:+ path +:+ " does not exist")).
Proof.
  induction 1 as [|[p [bw|]] t Hx _ IH];
    [reflexivity| |exfalso; apply Hx; reflexivity].
  change (((p, Some bw) :: t) ++ (path, None) :: after)
    with ((p, Some bw) :: (t ++ (path, None) :: after)).
  rewrite mapM_cons, IH. reflexivity.
Qed.

(** X10.  The signal files are looked for after the peaks are read: an exception
    of [getPeakPositions] is the exception of the run whatever the signal
    files are, and when [getPeakPositions] returns, the first signal file
    that does not exist ends the run with a [NoTracebackException] that
    names it; in both cases nothing is written. *)
Theorem missing_signal_file_raises_after_the_peaks_are_read
    (sort_values : list ScoredPeak -> list ScoredPeak) (task : Task)
    (chroms : list string) (chrom_sizes : list (string * Z)) (sequence_len : Z)
    (quantile scale : Q) :
  (forall e,
      getPeakPositions (loci_source task) chroms chrom_sizes (sequence_len / 2) true
        = Err e ->
      outliers_main sort_values task chroms chrom_sizes sequence_len quantile scale
        = Err e) /\
  (forall rows before after path,
      getPeakPositions (loci_source task) chroms chrom_sizes (sequence_len / 2) true
        = Ok rows ->
      signal_source task = before ++ (path, None) :: after ->
      Forall (fun src => src.2 <> None) before ->
      outliers_main sort_values task chroms chrom_sizes sequence_len quantile scale
        = Err (NoTracebackException ("BigWig file " +:+ path +:+ " does not exist")) /\
      output_bed (outliers_main sort_values task chroms chrom_sizes sequence_len
                    quantile scale) = None).
Proof.
  split.
  - intros e H. unfold outliers_main. rewrite H. reflexivity.
  - intros rows before after path H Hsrc Hbefore.
    assert (Hmain : outliers_main sort_values task chroms chrom_sizes sequence_len
                      quantile scale
                    = Err (NoTracebackException
                             ("BigWig file " +:+ path +:+ " does not exist"))).
    { unfold outliers_main. rewrite H, Hsrc. simpl.
      rewrite (mapM_open_signal_file_first_missing before after path Hbefore).
      reflexivity. }
    split; [exact Hmain | rewrite Hmain; reflexivity].
Qed.

Lemma missing_signal_file_raises_after_the_peaks_are_read_witness :
  outliers_main stable_sort_values
    {| loci_source := [[example_peak "chr1" 100 50]];
       signal_source := [("a.bw", Some example_track)] ++ ("b.bw", None) :: [("c.bw", None)] |}
    ["chr1"] example_sizes 20 (1 # 2) (12 # 10)
  = Err (NoTracebackException "BigWig file b.bw does not exist").
Proof.
  refine (proj1 (proj2 (missing_signal_file_raises_after_the_peaks_are_read
                          stable_sort_values
                          {| loci_source := [[example_peak "chr1" 100 50]];
                             signal_source := [("a.bw", Some example_track)]
                                                ++ ("b.bw", None) :: [("c.bw", None)] |}
                          ["chr1"] example_sizes 20 (1 # 2) (12 # 10))
                   [example_window] [("a.bw", Some example_track)] [("c.bw", None)]
                   "b.bw" _ _ _)).
  - vm_compute. reflexivity.
  - reflexivity.
  - repeat constructor. discriminate.
Defined.

(** ** What the trimming keeps *)

Lemma argmin_from_bound (a : list npfloat) (best : npfloat) (best_idx i : nat) :
  (best_idx < i)%nat -> (argmin_from best best_idx i a < i + length a)%nat.
Proof.
  revert best best_idx i. induction a as [|x t IH]; intros best best_idx i Hlt; simpl.
  - lia.
  - destruct (replaces_min x best).
    + specialize (IH x i (S i)). lia.
    + specialize (IH best best_idx (S i)). lia.
Qed.

Lemma np_argmin_bound (a : list npfloat) (i : nat) :
  np_argmin a = Ok i -> (i < length a)%nat.
Proof.
  destruct a as [|x t]; [discriminate|]. simpl. intros H. injection H as <-.
  pose proof (argmin_from_bound t x 0 1). lia.
Qed.

Lemma first_true_bound (a : list bool) (i : nat) :
  first_true a = Some i -> (i < length a)%nat.
Proof.
  intros H. apply first_true_Some in H as (H & _).
  apply nth_error_Some. congruence.
Qed.

Lemma firstn_In {A : Type} (n : nat) (l : list A) (x : A) :
  In x (firstn n l) -> In x l.
Proof.
  revert n. induction l as [|a t IH]; intros [|n] H; simpl in *; try tauto.
  destruct H as [H | H]; [left; exact H | right; eapply IH, H].
Qed.

Lemma StronglySorted_firstn {A : Type} (R : A -> A -> Prop) (n : nat) (l : list A) :
  StronglySorted R l -> StronglySorted R (firstn n l).
Proof.
  intros H. revert n. induction H as [|x t _ IH Hx]; intros [|n]; simpl;
    try constructor; [apply IH|].
  rewrite List.Forall_forall in Hx |- *. intros y Hy.
  apply Hx. eapply firstn_In, Hy.
Qed.

Lemma scaled_value_is_a_scaled_count
    (sort_values : list ScoredPeak -> list ScoredPeak)
    (df : list ScoredPeak) (quantile scale : Q) (t : Trimmed) :
  sorts_by_avg_counts sort_values ->
  df <> [] -> (0 <= quantile)%Q -> (quantile <= 1)%Q ->
  trim_outliers sort_values df quantile scale = Ok t ->
  (quantile_idx t < length df)%nat /\
  exists p, nth_error (sort_values df) (quantile_idx t) = Some p /\
            scaled_value t = (avg_counts p * scale)%Q.
Proof.
  intros Hs Hne H0 H1 Ht.
  destruct (trim_outliers_Ok sort_values Hs df quantile scale Hne H0 H1)
    as (t' & Ht' & _ & Hidx & Hsv & _).
  assert (t' = t) by congruence. subst t'.
  pose proof (Permutation_length (sort_values_perm _ Hs df)) as Hlen.
  assert (Hi : (quantile_idx t < length df)%nat).
  { apply np_argmin_bound in Hidx. rewrite !length_map in Hidx. lia. }
  split; [exact Hi|].
  destruct (nth_error (sort_values df) (quantile_idx t)) as [p|] eqn:Hp.
  - exists p. split; [reflexivity|]. rewrite Hsv.
    rewrite (nth_error_nth _ _ 0%Q (map_nth_error avg_counts _ _ Hp)). reflexivity.
  - apply nth_error_None in Hp. lia.
Qed.

(** X11.  The trimming never keeps the whole frame.  On a frame with at least one
    row the quantile index and the trim boundary are positions of the frame,
    the scaled value is the count of the row at the quantile index times the
    scale factor, and the number of kept rows is the trim boundary, which is
    below the number of rows: the row with the largest count, at least, is
    discarded, whatever the quantile and the scale factor. *)
Theorem trimming_always_discards_a_row
    (sort_values : list ScoredPeak -> list ScoredPeak)
    (df : list ScoredPeak) (quantile scale : Q) :
  sorts_by_avg_counts sort_values ->
  df <> [] -> (0 <= quantile)%Q -> (quantile <= 1)%Q ->
  exists t,
    trim_outliers sort_values df quantile scale = Ok t /\
    (exists p, nth_error (sort_values df) (quantile_idx t) = Some p /\
               scaled_value t = (avg_counts p * scale)%Q) /\
    (quantile_idx t < length df)%nat /\
    (max_idx t < length df)%nat /\
    length (trimmed t) = max_idx t /\
    (length (trimmed t) < length df)%nat.
Proof.
  intros Hs Hne H0 H1.
  destruct (trim_outliers_Ok sort_values Hs df quantile scale Hne H0 H1)
    as (t & Ht & _ & _ & _ & Hmax & Htrim).
  destruct (scaled_value_is_a_scaled_count sort_values df quantile scale t
              Hs Hne H0 H1 Ht) as (Hi & Hp).
  pose proof (Permutation_length (sort_values_perm _ Hs df)) as Hlen.
  assert (Hm : (max_idx t < length df)%nat).
  { rewrite Hmax.
    destruct (first_true (exceeds (scaled_value t) (sort_values df))) as [i|] eqn:Hft.
    - apply first_true_bound in Hft. unfold exceeds in Hft.
      rewrite !length_map in Hft. lia.
    - destruct df; [congruence | simpl; lia]. }
  assert (Hl : length (trimmed t) = max_idx t).
  { rewrite Htrim, length_firstn. lia. }
  exists t. split; [exact Ht|]. split; [exact Hp|].
  repeat split; try assumption; lia.
Qed.

Lemma trimming_always_discards_a_row_witness :
  exists t,
    trim_outliers stable_sort_values [example_scored 7] 1 1000 = Ok t /\
    (length (trimmed t) < 1)%nat.
Proof.
  destruct (trimming_always_discards_a_row stable_sort_values [example_scored 7]
              1 1000 stable_sort_values_ok)
    as (t & Ht & _ & _ & _ & _ & Hlt).
  - discriminate.
  - vm_compute. discriminate.
  - vm_compute. discriminate.
  - exists t. split; [exact Ht | exact Hlt].
Defined.

(** X12.  The kept rows are rows of the input frame, in ascending order of
    [avg_counts], none of them above the scaled value; they are the first
    rows of the sorted frame, and when at least one row is kept every
    discarded row is above the scaled value. *)
Theorem kept_rows_are_at_or_below_the_scaled_value
    (sort_values : list ScoredPeak -> list ScoredPeak)
    (df : list ScoredPeak) (quantile scale : Q) :
  sorts_by_avg_counts sort_values ->
  df <> [] -> (0 <= quantile)%Q -> (quantile <= 1)%Q ->
  exists t discarded,
    trim_outliers sort_values df quantile scale = Ok t /\
    sort_values df = trimmed t ++ discarded /\
    (forall p, In p (trimmed t) ->
               In p df /\ (avg_counts p <= scaled_value t)%Q) /\
    StronglySorted (fun a b => (avg_counts a <= avg_counts b)%Q) (trimmed t) /\
    (trimmed t <> [] ->
     forall p, In p discarded -> (scaled_value t < avg_counts p)%Q).
Proof.
  intros Hs Hne H0 H1.
  destruct (trim_outliers_Ok sort_values Hs df quantile scale Hne H0 H1)
    as (t & Ht & _ & _ & _ & Hmax & Htrim).
  exists t, (skipn (max_idx t) (sort_values df)).
  split; [exact Ht|]. split; [rewrite Htrim; symmetry; apply firstn_skipn|].
  pose proof (firstn_first_exceeder_filter (scaled_value t) (sort_values df)
                (sort_values_sorted _ Hs df)) as Hcut.
  pose proof (sorted_frame_split (scaled_value t) (sort_values df)
                (sort_values_sorted _ Hs df)) as Hsplit.
  destruct (first_true (exceeds (scaled_value t) (sort_values df))) as [i|] eqn:Hft.
  - rewrite <- Hmax, <- Htrim in Hcut. split; [|split].
    + intros p Hp. rewrite Hcut in Hp. apply filter_In in Hp as (Hp & Hle).
      split; [|apply Qle_bool_iff, Hle].
      apply (Permutation_in _ (Permutation_sym (sort_values_perm _ Hs df)) Hp).
    + rewrite Htrim. apply StronglySorted_firstn, Hs.
    + intros _ p Hp.
      assert (Hdis : skipn (max_idx t) (sort_values df) =
                     List.filter (fun p => negb (Qle_bool (avg_counts p) (scaled_value t)))
                       (sort_values df)).
      { apply (app_inv_head (trimmed t)).
        rewrite Htrim at 1. rewrite firstn_skipn, Hcut. exact Hsplit. }
      rewrite Hdis in Hp. apply filter_In in Hp as (_ & Hp).
      apply negb_true_iff in Hp. apply Qlt_bool_iff. unfold Qlt_bool.
      rewrite Hp. reflexivity.
  - rewrite Htrim, Hmax, firstn_O. split; [intros p []|].
    split; [constructor | congruence].
Qed.

Lemma kept_rows_are_at_or_below_the_scaled_value_witness :
  exists t discarded,
    trim_outliers stable_sort_values example_frame (1 # 2) (12 # 10) = Ok t /\
    stable_sort_values example_frame = trimmed t ++ discarded /\
    discarded = [example_scored 30].
Proof.
  destruct (kept_rows_are_at_or_below_the_scaled_value stable_sort_values
              example_frame (1 # 2) (12 # 10) stable_sort_values_ok)
    as (t & discarded & Ht & Hsplit & _).
  - discriminate.
  - vm_compute. discriminate.
  - vm_compute. discriminate.
  - exists t, discarded. split; [exact Ht|]. split; [exact Hsplit|].
    vm_compute in Ht. injection Ht as <-.
    vm_compute in Hsplit. injection Hsplit as <-. reflexivity.
Defined.

(** ** The quantile *)

Lemma quantile_position_bounds (q : Q) (n : nat) :
  (0 <= q)%Q -> (q <= 1)%Q -> (1 <= n)%nat ->
  0 <= Qfloor (q * inject_Z (Z.of_nat n - 1)) <= Z.of_nat n - 1 /\
  (0 <= q * inject_Z (Z.of_nat n - 1)
        - inject_Z (Qfloor (q * inject_Z (Z.of_nat n - 1))))%Q /\
  (q * inject_Z (Z.of_nat n - 1)
   - inject_Z (Qfloor (q * inject_Z (Z.of_nat n - 1))) <= 1)%Q.
Proof.
  intros H0 H1 Hn.
  set (m := Z.of_nat n - 1). set (virt := (q * inject_Z m)%Q).
  assert (Hm : (0 <= inject_Z m)%Q).
  { change 0%Q with (inject_Z 0). rewrite <- Zle_Qle. unfold m. lia. }
  assert (Hv0 : (0 <= virt)%Q) by (apply Qmult_le_0_compat; assumption).
  assert (Hv1 : (virt <= inject_Z m)%Q).
  { unfold virt. rewrite <- (Qmult_1_l (inject_Z m)) at 2.
    apply Qmult_le_compat_r; assumption. }
  split; [split|split].
  - rewrite <- (Qfloor_Z 0). apply Qfloor_resp_le, Hv0.
  - rewrite <- (Qfloor_Z m). apply Qfloor_resp_le, Hv1.
  - pose proof (Qfloor_le virt). lra.
  - pose proof (Qlt_floor virt) as Hlt. rewrite inject_Z_plus in Hlt.
    change (inject_Z 1) with 1%Q in Hlt. lra.
Qed.

Lemma np_quantile_interpolates (a : list Q) (q : Q) :
  a <> [] -> (0 <= q)%Q -> (q <= 1)%Q ->
  exists lo hi gamma,
    In lo a /\ In hi a /\ (0 <= gamma)%Q /\ (gamma <= 1)%Q /\
    np_quantile a q = Ok (Finite (lo + (hi - lo) * gamma)%Q).
Proof.
  intros Hne H0 H1. unfold np_quantile.
  apply Qle_bool_iff in H0 as H0', H1 as H1'. rewrite H0', H1'. simpl andb. cbv iota.
  destruct (sort_by Qle_bool a) as [|x l] eqn:Hsort.
  - exfalso. apply Hne. apply Permutation_nil. rewrite <- Hsort. symmetry.
    apply sort_by_perm.
  - set (arr := x :: l) in *.
    assert (Hn : (1 <= length arr)%nat) by (simpl; lia).
    destruct (quantile_position_bounds q (length arr) H0 H1 Hn)
      as ((Hp0 & Hp1) & Hg0 & Hg1).
    set (previous := Qfloor (q * inject_Z (Z.of_nat (length arr) - 1))) in *.
    assert (Hin : forall i, 0 <= i <= Z.of_nat (length arr) - 1 ->
                            In (nth (Z.to_nat i) arr 0%Q) a).
    { intros i Hi. apply (sort_by_In Qle_bool). rewrite Hsort.
      apply nth_In. lia. }
    eexists _, _, _.
    split; [apply (Hin previous); lia|].
    split; [apply (Hin (Z.min (previous + 1) (Z.of_nat (length arr) - 1))); lia|].
    split; [exact Hg0|]. split; [exact Hg1|]. reflexivity.
Qed.

Lemma np_quantile_within (a : list Q) (q lo hi : Q) :
  a <> [] -> (0 <= q)%Q -> (q <= 1)%Q ->
  (forall c, In c a -> (lo <= c)%Q /\ (c <= hi)%Q) ->
  exists v, np_quantile a q = Ok (Finite v) /\ (lo <= v)%Q /\ (v <= hi)%Q.
Proof.
  intros Hne H0 H1 Hin.
  destruct (np_quantile_interpolates a q Hne H0 H1)
    as (x & y & g & Hx & Hy & Hg0 & Hg1 & Hv).
  destruct (Hin x Hx) as (Hx0 & Hx1). destruct (Hin y Hy) as (Hy0 & Hy1).
  exists (x + (y - x) * g)%Q. split; [exact Hv|]. split; nra.
Qed.

Lemma counts_of_sorted_frame_within
    (sort_values : list ScoredPeak -> list ScoredPeak) (df : list ScoredPeak)
    (lo hi : Q) :
  sorts_by_avg_counts sort_values -> df <> [] ->
  (forall p, In p df -> (lo <= avg_counts p)%Q /\ (avg_counts p <= hi)%Q) ->
  List.map avg_counts (sort_values df) <> [] /\
  forall c, In c (List.map avg_counts (sort_values df)) -> (lo <= c)%Q /\ (c <= hi)%Q.
Proof.
  intros Hs Hne Hb. split.
  - intros Hnil. apply map_eq_nil in Hnil.
    exact (sort_values_nonempty _ Hs df Hne Hnil).
  - intros c Hcin. apply in_map_iff in Hcin as (p & <- & Hp). apply Hb.
    apply (Permutation_in _ (Permutation_sym (sort_values_perm _ Hs df)) Hp).
Qed.

(** X13.  The quantile that the trimming logs lies between the smallest and the
    largest [avg_counts] of the frame: any bounds on the counts of the frame
    are bounds on the quantile. *)
Theorem quantile_lies_within_the_counts
    (sort_values : list ScoredPeak -> list ScoredPeak)
    (df : list ScoredPeak) (quantile scale lo hi : Q) :
  sorts_by_avg_counts sort_values ->
  df <> [] -> (0 <= quantile)%Q -> (quantile <= 1)%Q ->
  (forall p, In p df -> (lo <= avg_counts p)%Q /\ (avg_counts p <= hi)%Q) ->
  exists t v,
    trim_outliers sort_values df quantile scale = Ok t /\
    nth_quantile t = Finite v /\ (lo <= v)%Q /\ (v <= hi)%Q.
Proof.
  intros Hs Hne H0 H1 Hb.
  destruct (trim_outliers_Ok sort_values Hs df quantile scale Hne H0 H1)
    as (t & Ht & Hq & _).
  destruct (counts_of_sorted_frame_within sort_values df lo hi Hs Hne Hb)
    as (Hc & Hin).
  destruct (np_quantile_within _ quantile lo hi Hc H0 H1 Hin) as (v & Hv & Hlo & Hhi).
  exists t, v. split; [exact Ht|]. split; [congruence|]. split; assumption.
Qed.

Lemma quantile_lies_within_the_counts_witness :
  exists t v,
    trim_outliers stable_sort_values example_frame (1 # 3) (12 # 10) = Ok t /\
    nth_quantile t = Finite v /\ (10 <= v)%Q /\ (v <= 30)%Q.
Proof.
  apply (quantile_lies_within_the_counts stable_sort_values example_frame
           (1 # 3) (12 # 10) 10 30 stable_sort_values_ok).
  - discriminate.
  - vm_compute. discriminate.
  - vm_compute. discriminate.
  - intros p [<- | [<- | [<- | []]]]; split; vm_compute; discriminate.
Defined.

(** X14.  A frame whose rows all have the same [avg_counts] is discarded whole:
    the quantile is that count, the scaled value is the count times the
    scale factor, the trim boundary is 0 and no row is kept, whatever the
    quantile and the scale factor. *)
Theorem frame_of_equal_counts_is_discarded
    (sort_values : list ScoredPeak -> list ScoredPeak)
    (df : list ScoredPeak) (quantile scale v : Q) :
  sorts_by_avg_counts sort_values ->
  df <> [] -> (0 <= quantile)%Q -> (quantile <= 1)%Q ->
  (forall p, In p df -> (avg_counts p == v)%Q) ->
  exists t v',
    trim_outliers sort_values df quantile scale = Ok t /\
    nth_quantile t = Finite v' /\ (v' == v)%Q /\
    (scaled_value t == v * scale)%Q /\
    max_idx t = 0%nat /\ trimmed t = [].
Proof.
  intros Hs Hne H0 H1 Hv.
  destruct (trim_outliers_Ok sort_values Hs df quantile scale Hne H0 H1)
    as (t & Ht & Hq' & _ & _ & Hmax & Htrim).
  assert (Hb : forall p, In p df -> (v <= avg_counts p)%Q /\ (avg_counts p <= v)%Q).
  { intros p Hp. rewrite (Hv p Hp). split; apply Qle_refl. }
  destruct (counts_of_sorted_frame_within sort_values df v v Hs Hne Hb) as (Hc & Hin).
  destruct (np_quantile_within _ quantile v v Hc H0 H1 Hin) as (v' & Hv' & Hlo & Hhi).
  assert (Hq : nth_quantile t = Finite v') by congruence.
  destruct (scaled_value_is_a_scaled_count sort_values df quantile scale t
              Hs Hne H0 H1 Ht) as (_ & p & Hp & Hsv).
  assert (Hall : forall r, In r (sort_values df) -> (avg_counts r == v)%Q).
  { intros r Hr. apply Hv.
    apply (Permutation_in _ (Permutation_sym (sort_values_perm _ Hs df)) Hr). }
  assert (Hsv' : (scaled_value t == v * scale)%Q).
  { rewrite Hsv, (Hall p (nth_error_In _ _ Hp)). reflexivity. }
  assert (Hm : max_idx t = 0%nat).
  { rewrite Hmax.
    destruct (sort_values df) as [|r rest] eqn:Hsorted; [reflexivity|].
    destruct (Qlt_bool (scaled_value t) (avg_counts r)) eqn:Hr.
    - unfold exceeds. simpl. rewrite Hr. reflexivity.
    - rewrite first_true_exceeds_None; [reflexivity|].
      intros r' Hr'. apply Qlt_bool_false_iff in Hr.
      rewrite (Hall r' Hr'), <- (Hall r (or_introl eq_refl)). exact Hr. }
  exists t, v'. repeat split; try assumption.
  - apply Qle_antisym; assumption.
  - rewrite Htrim, Hm. apply firstn_O.
Qed.

Lemma frame_of_equal_counts_is_discarded_witness :
  exists t,
    trim_outliers stable_sort_values
      [example_scored 5; example_scored (10 # 2); example_scored 5] (1 # 4) (3 # 1)
    = Ok t /\ trimmed t = [].
Proof.
  destruct (frame_of_equal_counts_is_discarded stable_sort_values
              [example_scored 5; example_scored (10 # 2); example_scored 5]
              (1 # 4) (3 # 1) 5 stable_sort_values_ok)
    as (t & v' & Ht & _ & _ & _ & _ & Htrim).
  - discriminate.
  - vm_compute. discriminate.
  - vm_compute. discriminate.
  - intros p [<- | [<- | [<- | []]]]; reflexivity.
  - exists t. split; [exact Ht | exact Htrim].
Defined.

(** ** The quantile index *)





(** ** The order of the input rows *)

(** X16.  The trimming does not depend on the order in which the rows of the frame
    are given: two frames with the same rows in different orders lead to the
    same exception, or to the same quantile, quantile index, scaled value and
    trim boundary and to the same kept rows, up to the order among them. *)
Theorem trimming_does_not_depend_on_the_order_of_the_rows
    (sort_values sort_values' : list ScoredPeak -> list ScoredPeak)
    (df df' : list ScoredPeak) (quantile scale : Q) :
  sorts_by_avg_counts sort_values ->
  sorts_by_avg_counts sort_values' ->
  Permutation df df' ->
  same_trimming (trim_outliers sort_values df quantile scale)
                (trim_outliers sort_values' df' quantile scale).
Proof.
  intros Hf Hg Hdf.
  assert (Hperm : Permutation (sort_values df) (sort_values' df')).
  { etransitivity; [symmetry; apply Hf|]. etransitivity; [exact Hdf | apply Hg]. }
  pose proof (sort_values_sorted _ Hf df) as Hs1.
  pose proof (sort_values_sorted _ Hg df') as Hs2.
  pose proof (sorted_perm_same_counts _ _ Hs1 Hs2 Hperm) as Hc.
  unfold same_trimming, trim_outliers.
  generalize dependent (sort_values' df'). generalize dependent (sort_values df).
  intros l1 Hs1 l2 Hperm Hs2 Hc.
  pose proof (np_quantile_Qeq _ _ quantile Hc) as Hq.
  destruct (np_quantile (List.map avg_counts l1) quantile) as [n1|e1],
           (np_quantile (List.map avg_counts l2) quantile) as [n2|e2];
    try contradiction; simpl; [|exact Hq].
  rewrite (np_argmin_comp _ _ (abs_diff_comp n1 n2 _ _ Hq Hc)).
  destruct (np_argmin (List.map (abs_diff n2) (List.map avg_counts l2)))
    as [idx|e]; simpl; [|reflexivity].
  assert (Hsv : (nth idx (List.map avg_counts l1) 0 * scale ==
                 nth idx (List.map avg_counts l2) 0 * scale)%Q).
  { rewrite (nth_Qeq _ _ idx Hc). reflexivity. }
  set (sv1 := (nth idx (List.map avg_counts l1) 0 * scale)%Q) in *.
  set (sv2 := (nth idx (List.map avg_counts l2) 0 * scale)%Q) in *.
  pose proof (exceeds_comp sv1 sv2 _ _ Hsv Hc) as Hex.
  fold (exceeds sv1 l1) in Hex |- *. fold (exceeds sv2 l2) in Hex |- *.
  pose proof (firstn_first_exceeder_filter sv1 l1 Hs1) as Hcut1.
  pose proof (firstn_first_exceeder_filter sv2 l2 Hs2) as Hcut2.
  rewrite Hex in Hcut1 |- *.
  unfold np_argmax.
  destruct (first_true (exceeds sv2 l2)) as [i|] eqn:Hft;
    destruct (exceeds sv2 l2) as [|b bs] eqn:Hbs; simpl; try reflexivity;
    repeat split; try assumption; try reflexivity.
  rewrite Hcut1, Hcut2.
  apply filter_Permutation_ext; [|exact Hperm].
  intros p. apply Qleb_comp; [reflexivity | exact Hsv].
Qed.

Lemma trimming_does_not_depend_on_the_order_of_the_rows_witness :
  same_trimming
    (trim_outliers stable_sort_values
       [example_scored 10; example_scored 20; example_scored 30] (1 # 2) (12 # 10))
    (trim_outliers stable_sort_values
       [example_scored 30; example_scored 10; example_scored 20] (1 # 2) (12 # 10)).
Proof.
  apply (trimming_does_not_depend_on_the_order_of_the_rows stable_sort_values
           stable_sort_values
           [example_scored 10; example_scored 20; example_scored 30]
           [example_scored 30; example_scored 10; example_scored 20]
           (1 # 2) (12 # 10) stable_sort_values_ok stable_sort_values_ok).
  apply Permutation_sym, Permutation_cons_append.
Defined.

(** ** The whole run *)

Lemma np_argmax_bound (a : list bool) (i : nat) :
  np_argmax a = Ok i -> (i < length a)%nat.
Proof.
  unfold np_argmax. intros H.
  assert (Hne : (0 < length a)%nat) by (destruct a; [discriminate | simpl; lia]).
  assert (Hi : i = match first_true a with Some k => k | None => 0%nat end).
  { destruct a; [discriminate|]. injection H as <-. reflexivity. }
  rewrite Hi. destruct (first_true a) as [k|] eqn:Hft;
    [apply first_true_bound, Hft | exact Hne].
Qed.

Lemma trim_outliers_Ok_inv (sort_values : list ScoredPeak -> list ScoredPeak)
    (df : list ScoredPeak) (quantile scale : Q) (t : Trimmed) :
  trim_outliers sort_values df quantile scale = Ok t ->
  trimmed t = firstn (max_idx t) (sort_values df) /\
  (max_idx t < length (sort_values df))%nat.
Proof.
  unfold trim_outliers. intros H.
  apply bind_Ok in H as (nq & _ & H). apply bind_Ok in H as (idx & _ & H).
  apply bind_Ok in H as (k & Hk & H). injection H as <-. simpl.
  split; [reflexivity|]. apply np_argmax_bound in Hk.
  rewrite !length_map in Hk. exact Hk.
Qed.

Lemma source_windows_length (d : gmap string Z) (chroms : list string) (flank : Z)
    (src : list narrowPeak.t) (out : list PeakWindow) :
  source_windows d chroms flank src = Ok out -> (length out <= length src)%nat.
Proof.
  unfold source_windows. intros H.
  apply bind_Ok in H as (sized & Hm & H). injection H as <-.
  rewrite <- (Permutation_length (sort_by_perm chrom_end_leb _)), length_map.
  apply mapM_Ok_Forall2 in Hm.
  assert (Hlen : length sized =
                 length (List.filter (fun w => (0 <=? start w)%Z)
                           (List.map (with_flank flank)
                              (List.filter (fun r => isin chroms (narrowPeak.chrom r)) src))))
    by (symmetry; eapply Forall2_length; exact Hm).
  pose proof (List.filter_length_le (fun ws : PeakWindow * Z => (end_ ws.1 <=? ws.2)%Z) sized).
  pose proof (List.filter_length_le (fun w => (0 <=? start w)%Z)
                (List.map (with_flank flank)
                   (List.filter (fun r => isin chroms (narrowPeak.chrom r)) src))).
  pose proof (List.filter_length_le (fun r => isin chroms (narrowPeak.chrom r)) src).
  rewrite length_map in *. lia.
Qed.

Lemma all_sources_length (d : gmap string Z) (chroms : list string) (flank : Z)
    (sources : list (list narrowPeak.t)) (allPeaks rows : list PeakWindow) :
  all_sources d chroms flank sources allPeaks = Ok rows ->
  (length rows <= length allPeaks + length (concat sources))%nat.
Proof.
  revert allPeaks. induction sources as [|src rest IH]; intros allPeaks H; simpl in *.
  - injection H as <-. lia.
  - apply bind_Ok in H as (out & Hout & H).
    apply IH in H. apply source_windows_length in Hout.
    rewrite length_app in *. lia.
Qed.

(** X17.  When a run writes its output: exactly when every row of the peaks files
    that reaches the size lookup has a size, at least one window is valid,
    every signal file exists and answers on every valid window, and the
    quantile is in [[0, 1]]. *)
Theorem outliers_main_writes_its_output_iff
    (sort_values : list ScoredPeak -> list ScoredPeak) (task : Task)
    (chroms : list string) (chrom_sizes : list (string * Z)) (sequence_len : Z)
    (quantile scale : Q) :
  sorts_by_avg_counts sort_values ->
  signal_source task <> [] ->
  ((exists out,
       outliers_main sort_values task chroms chrom_sizes sequence_len quantile scale
       = Ok out)
   <->
   (exists rows signal_files,
       getPeakPositions (loci_source task) chroms chrom_sizes (sequence_len / 2) true
         = Ok rows /\
       rows <> [] /\
       Forall2 (fun src bw => src.2 = Some bw) (signal_source task) signal_files /\
       (forall row bw, In row rows -> In bw signal_files ->
          exists vals,
            bw (narrowPeak.chrom (peak row)) (start row) (end_ row) = Ok vals) /\
       (0 <= quantile)%Q /\ (quantile <= 1)%Q)).
Proof.
  intros Hs _. unfold outliers_main. split.
  - intros (out & H).
    apply bind_Ok in H as (rows & Hrows & H).
    apply bind_Ok in H as (files & Hfiles & H).
    apply bind_Ok in H as (scored & Hscored & H).
    apply bind_Ok in H as (t & Ht & _).
    exists rows, files. split; [exact Hrows|].
    assert (Hne : scored <> []).
    { intros ->. rewrite (trim_outliers_nil_raises _ quantile scale Hs) in Ht.
      destruct (Qle_bool 0 quantile && Qle_bool quantile 1); discriminate. }
    split; [|split; [|split]].
    + intros ->. apply Hne. unfold compute_counts in Hscored. simpl in Hscored.
      congruence.
    + apply mapM_Ok_Forall2 in Hfiles.
      eapply Forall2_impl; [exact Hfiles|].
      intros [path [bw|]] bw' Hopen; unfold open_signal_file in Hopen; simpl in *;
        [congruence | discriminate].
    + apply compute_counts_returns_iff. eauto.
    + destruct (Qlt_le_dec quantile 0) as [Hlt | Hle0].
      { unfold trim_outliers in Ht.
        rewrite (np_quantile_out_of_range _ _ (or_introl Hlt)) in Ht. discriminate. }
      destruct (Qlt_le_dec 1 quantile) as [Hlt | Hle1]; [|split; assumption].
      unfold trim_outliers in Ht.
      rewrite (np_quantile_out_of_range _ _ (or_intror Hlt)) in Ht. discriminate.
  - intros (rows & files & Hrows & Hne & Hfiles & Hvals & H0 & H1).
    rewrite Hrows. simpl.
    assert (Hopen : mapM open_signal_file (signal_source task) = Ok files).
    { apply mapM_Ok_Forall2. eapply Forall2_impl; [exact Hfiles|].
      intros [path o] bw Hsrc. simpl in Hsrc. subst o. reflexivity. }
    rewrite Hopen. simpl.
    destruct (proj2 (compute_counts_returns_iff files rows) Hvals) as (scored & Hscored).
    rewrite Hscored. simpl.
    assert (Hne' : scored <> []).
    { intros ->. apply Hne. eapply mapM_nil_inv, Hscored. }
    destruct (trim_outliers_Ok sort_values Hs scored quantile scale Hne' H0 H1)
      as (t & -> & _).
    simpl. eauto.
Qed.

Lemma outliers_main_writes_its_output_iff_witness :
  exists out,
    outliers_main stable_sort_values
      {| loci_source := [[example_peak "chr1" 100 50; example_peak "chr2" 300 40]];
         signal_source := [("signal.bw", Some example_track)] |}
      ["chr1"; "chr2"] example_sizes 20 (1 # 2) (12 # 10) = Ok out.
Proof.
  apply (outliers_main_writes_its_output_iff stable_sort_values
           {| loci_source := [[example_peak "chr1" 100 50; example_peak "chr2" 300 40]];
              signal_source := [("signal.bw", Some example_track)] |}
           ["chr1"; "chr2"] example_sizes 20 (1 # 2) (12 # 10) stable_sort_values_ok).
  - discriminate.
  - exists [example_window; with_flank 10 (example_peak "chr2" 300 40)], [example_track].
    split; [vm_compute; reflexivity|]. split; [discriminate|].
    split; [repeat constructor|].
    split; [intros row bw _ [<- | []]; unfold example_track; eauto|].
    split; vm_compute; discriminate.
Defined.

(** X18.  On rows whose window arithmetic stays within the 64-bit range, a run
    never writes a row that is not a valid row of a peaks file: every written
    row is a row of a peaks file, on a required chromosome, whose window lies
    within its chromosome; and fewer rows are written than the peaks files
    hold. *)
Theorem written_rows_are_valid_rows_of_the_peaks_files
    (sort_values : list ScoredPeak -> list ScoredPeak) (task : Task)
    (chroms : list string) (chrom_sizes : list (string * Z)) (sequence_len : Z)
    (quantile scale : Q) (out : list narrowPeak.t) :
  sorts_by_avg_counts sort_values ->
  signal_source task <> [] ->
  (forall r, In r (concat (loci_source task)) ->
             isin chroms (narrowPeak.chrom r) = true ->
             window_fits_int64 (sequence_len / 2) r) ->
  outliers_main sort_values task chroms chrom_sizes sequence_len quantile scale
    = Ok out ->
  (forall r, In r out ->
     exists size,
       In r (concat (loci_source task)) /\ isin chroms (narrowPeak.chrom r) = true /\
       chrom_size_dict chrom_sizes !! narrowPeak.chrom r = Some size /\
       0 <= pos r - sequence_len / 2 /\ pos r + sequence_len / 2 <= size) /\
  (length out < length (concat (loci_source task)))%nat.
Proof.
  intros Hs _ _ H. unfold outliers_main in H.
  apply bind_Ok in H as (rows & Hrows & H).
  apply bind_Ok in H as (files & _ & H).
  apply bind_Ok in H as (scored & Hscored & H).
  apply bind_Ok in H as (t & Ht & H). injection H as <-.
  apply trim_outliers_Ok_inv in Ht as (Htrim & Hmax).
  unfold getPeakPositions in Hrows.
  apply bind_Ok in Hrows as (allPeaks & Hall & Hrows). injection Hrows as <-.
  unfold compute_counts in Hscored.
  split.
  - intros r Hr. apply in_map_iff in Hr as (sp & <- & Hsp).
    rewrite Htrim in Hsp. apply firstn_In in Hsp.
    apply (Permutation_in _ (Permutation_sym (sort_values_perm _ Hs scored))) in Hsp.
    destruct (mapM_Ok_In _ _ _ Hscored _ Hsp) as (row & Hrow & Hscore).
    apply score_row_window in Hscore. rewrite Hscore.
    apply drop_duplicates_from_In in Hrow.
    destruct (all_sources_Ok_In _ _ _ _ _ _ _ Hall Hrow)
      as [[] | (src & rows' & Hsrc & Hout & Hin)].
    destruct (source_windows_Ok_In _ _ _ _ _ _ Hout Hin)
      as (r & size & Hr & Hc & -> & Hstart & Hd & Hend).
    exists size. simpl in *. repeat split; try assumption.
    apply in_concat. exists src. split; assumption.
  - rewrite length_map, Htrim, length_firstn.
    rewrite <- (Permutation_length (sort_values_perm _ Hs scored)) in Hmax.
    apply mapM_Ok_Forall2 in Hscored.
    assert (Hlen : length (drop_duplicates allPeaks) = length scored)
      by (eapply Forall2_length; exact Hscored).
    pose proof (drop_duplicates_from_length [] allPeaks) as Hdd.
    fold (drop_duplicates allPeaks) in Hdd.
    apply all_sources_length in Hall. simpl in Hall.
    rewrite <- (Permutation_length (sort_values_perm _ Hs scored)). lia.
Qed.

Lemma written_rows_are_valid_rows_of_the_peaks_files_witness :
  (length [example_peak "chr1" 100 50]
   < length (concat [[example_peak "chr1" 100 50; example_peak "chr2" 300 40;
                      example_peak "chr2" 795 5]]))%nat.
Proof.
  apply (written_rows_are_valid_rows_of_the_peaks_files stable_sort_values
           {| loci_source := [[example_peak "chr1" 100 50; example_peak "chr2" 300 40;
                               example_peak "chr2" 795 5]];
              signal_source := [("signal.bw", Some example_track);
                                ("other.bw",
                                 Some (fun c _ _ =>
                                         Ok (if String.eqb c "chr2"
                                             then [Finite 9] else [NaN])))] |}
           ["chr1"; "chr2"] example_sizes 20 (1 # 2) (12 # 10)
           [example_peak "chr1" 100 50] stable_sort_values_ok).
  - discriminate.
  - intros r [<- | [<- | [<- | []]]] _; unfold window_fits_int64, fits_int64;
      repeat split; vm_compute; discriminate.
  - vm_compute. reflexivity.
Defined.

(** ** The flank *)

(** X19.  On rows whose window arithmetic stays within the 64-bit range for both
    flanks, a wider flank keeps no peak that a narrower one drops: when the
    frame of the narrower flank is returned, the frame of the wider flank is
    returned too, and each of its rows is the row of a peak of the narrower
    frame. *)
Theorem wider_flank_keeps_a_subset_of_the_peaks
    (sources : list (list narrowPeak.t)) (chroms : list string)
    (chrom_sizes : list (string * Z)) (flank flank' : Z) (rows : list PeakWindow) :
  flank <= flank' ->
  (forall r, In r (concat sources) -> isin chroms (narrowPeak.chrom r) = true ->
             window_fits_int64 flank r /\ window_fits_int64 flank' r) ->
  getPeakPositions sources chroms chrom_sizes flank false = Ok rows ->
  exists rows',
    getPeakPositions sources chroms chrom_sizes flank' false = Ok rows' /\
    forall w', In w' rows' ->
               w' = with_flank flank' (peak w') /\
               In (with_flank flank (peak w')) rows.
Proof.
  intros Hle _ H. unfold getPeakPositions in *.
  apply bind_Ok in H as (allPeaks & Hall & H). injection H as <-.
  destruct (all_sources_Ok_when_sized (chrom_size_dict chrom_sizes) chroms flank'
              sources []) as (rows' & Hrows').
  { intros r Hr (Hc & Hs & Hd).
    destruct (all_sources_unsized (chrom_size_dict chrom_sizes) chroms flank sources
                [] r Hr) as (r' & _ & _ & Herr); [|congruence].
    split; [exact Hc|]. split; [lia | exact Hd]. }
  rewrite Hrows'. exists rows'. split; [reflexivity|].
  intros w' Hw'.
  destruct (all_sources_Ok_In _ _ _ _ _ _ _ Hrows' Hw')
    as [[] | (src & out & Hsrc & Hout & Hin)].
  destruct (source_windows_Ok_In _ _ _ _ _ _ Hout Hin)
    as (r & size & Hr & Hc & -> & Hs & Hd & He).
  simpl in *. split; [reflexivity|].
  apply (all_sources_Ok_complete _ _ _ _ _ r size Hall); try assumption; try lia.
  apply in_concat. exists src. split; assumption.
Qed.

Lemma wider_flank_keeps_a_subset_of_the_peaks_witness :
  exists rows',
    getPeakPositions [[example_peak "chr1" 100 50; example_peak "chr1" 10 20]]
      ["chr1"] example_sizes 40 false = Ok rows' /\
    forall w', In w' rows' ->
               w' = with_flank 40 (peak w') /\
               In (with_flank 10 (peak w'))
                  [with_flank 10 (example_peak "chr1" 10 20);
                   with_flank 10 (example_peak "chr1" 100 50)].
Proof.
  apply (wider_flank_keeps_a_subset_of_the_peaks
           [[example_peak "chr1" 100 50; example_peak "chr1" 10 20]]
           ["chr1"] example_sizes 10 40).
  - lia.
  - intros r [<- | [<- | []]] _; unfold window_fits_int64, fits_int64;
      repeat split; vm_compute; discriminate.
  - vm_compute. reflexivity.
Defined.

(** ** Scale factors of at least 1 *)

Lemma sorted_frame_nth_le (l : list ScoredPeak) (i j : nat) (p r : ScoredPeak) :
  StronglySorted (fun a b => (avg_counts a <= avg_counts b)%Q) l ->
  (i <= j)%nat -> nth_error l i = Some p -> nth_error l j = Some r ->
  (avg_counts p <= avg_counts r)%Q.
Proof.
  intros Hs. revert i j. induction Hs as [|x t _ IH Hx]; intros i j Hij Hp Hr.
  - destruct i; discriminate.
  - destruct i as [|i], j as [|j]; simpl in *; try lia.
    + injection Hp as <-. injection Hr as <-. apply Qle_refl.
    + injection Hp as <-. rewrite List.Forall_forall in Hx.
      apply Hx. eapply nth_error_In, Hr.
    + apply (IH i j); [lia | assumption | assumption].
Qed.

(** X20.  With counts that are not negative and a scale factor of at least 1, the
    run keeps nothing or keeps every row up to the row at the quantile
    index: when some row is above the scaled value, the trim boundary is
    beyond the quantile index. *)
Theorem rows_up_to_the_quantile_are_kept_when_any_is
    (sort_values : list ScoredPeak -> list ScoredPeak)
    (df : list ScoredPeak) (quantile scale : Q) :
  sorts_by_avg_counts sort_values ->
  df <> [] -> (0 <= quantile)%Q -> (quantile <= 1)%Q ->
  (1 <= scale)%Q ->
  (forall p, In p df -> (0 <= avg_counts p)%Q) ->
  exists t,
    trim_outliers sort_values df quantile scale = Ok t /\
    ((exists p, In p (sort_values df) /\ (scaled_value t < avg_counts p)%Q) ->
     (quantile_idx t < max_idx t)%nat /\
     (quantile_idx t < length (trimmed t))%nat) /\
    ((forall p, In p (sort_values df) -> (avg_counts p <= scaled_value t)%Q) ->
     trimmed t = []).
Proof.
  intros Hs Hne H0 H1 Hscale Hpos.
  destruct (trim_outliers_Ok sort_values Hs df quantile scale Hne H0 H1)
    as (t & Ht & _ & _ & _ & Hmax & Htrim).
  destruct (scaled_value_is_a_scaled_count sort_values df quantile scale t
              Hs Hne H0 H1 Ht) as (Hidx & p & Hp & Hsv).
  exists t. split; [exact Ht|]. split.
  - intros Hex. destruct (first_true_exceeds_Some _ _ Hex) as (i & Hi).
    rewrite Hi in Hmax.
    assert (Hlt : (quantile_idx t < max_idx t)%nat).
    { rewrite Hmax. destruct (Nat.lt_ge_cases (quantile_idx t) i) as [Hlt | Hge];
        [exact Hlt | exfalso].
      destruct (first_true_Some _ _ Hi) as (Hat & _).
      apply exceeds_nth_error in Hat as (r & Hr & Hb).
      symmetry in Hb. apply Qlt_bool_iff in Hb.
      pose proof (sorted_frame_nth_le _ _ _ _ _ (sort_values_sorted _ Hs df) Hge Hr Hp)
        as Hle.
      assert (Hp0 : (0 <= avg_counts p)%Q).
      { apply Hpos.
        apply (Permutation_in _ (Permutation_sym (sort_values_perm _ Hs df))).
        eapply nth_error_In, Hp. }
      rewrite Hsv in Hb. nra. }
    split; [exact Hlt|].
    rewrite Htrim, length_firstn.
    pose proof (Permutation_length (sort_values_perm _ Hs df)).
    apply first_true_bound in Hi. unfold exceeds in Hi. rewrite !length_map in Hi.
    lia.
  - intros Hall. rewrite (first_true_exceeds_None _ _ Hall) in Hmax.
    rewrite Htrim, Hmax. apply firstn_O.
Qed.

Lemma rows_up_to_the_quantile_are_kept_when_any_is_witness :
  exists t,
    trim_outliers stable_sort_values example_frame (1 # 2) (12 # 10) = Ok t /\
    (quantile_idx t < length (trimmed t))%nat.
Proof.
  destruct (rows_up_to_the_quantile_are_kept_when_any_is stable_sort_values
              example_frame (1 # 2) (12 # 10) stable_sort_values_ok)
    as (t & Ht & Hkept & _).
  - discriminate.
  - vm_compute. discriminate.
  - vm_compute. discriminate.
  - vm_compute. discriminate.
  - intros p [<- | [<- | [<- | []]]]; vm_compute; discriminate.
  - exists t. split; [exact Ht|]. apply Hkept.
    exists (example_scored 30). vm_compute in Ht. injection Ht as <-.
    split; [vm_compute; auto | vm_compute; reflexivity].
Defined.
